(** * helloworld.js: the procedural generators, embedded and verified

    A shallow embedding of the three generation algorithms of the
    repository:

    - [src/algorithms/lsystem.js]: the rewriting engine [LSystem] and
      the turtle walker [parseLSystemString];
    - [src/algorithms/buildingGrammar.js]: [BuildingGrammar];
    - [src/algorithms/flocking.js]: [Boid] and [FlockingSystem].

    Conventions of the embedding.

    - A JavaScript number that holds a measure (a length, an angle, a
      coordinate, a weight) is a real number of [R]: arithmetic is exact,
      there is no rounding, no NaN and no infinity.  A number that holds a
      count or an index (iterations, levels, roomsPerLevel, loop
      counters) is a [nat]; [BuildingCounts] reads the two counts of a
      building as integers of either sign or NaN.
    - A JavaScript string is a [string]; the symbols of an L-system are
      its characters.
    - An object used as a dictionary is a [gmap] with string keys.
    - Mutation is explicit state passing; an exception is a value of
      [Completion]. *)

From Stdlib Require Import Reals Lra Lia List Ascii String.
From stdpp Require Import base option list strings gmap pretty.
Import ListNotations.

(** ** JavaScript values and completions *)

Module Js.

(** The values a configuration key can hold.  An absent key reads as
    [JsUndefined]. *)
Inductive JsValue : Type :=
| JsUndefined
| JsNull
| JsBool (b : bool)
| JsNumber (r : R)
| JsString (s : string).

(** [a === b] on the values above. *)
Definition strict_equal (a b : JsValue) : bool :=
  match a, b with
  | JsUndefined, JsUndefined => true
  | JsNull, JsNull => true
  | JsBool x, JsBool y => Bool.eqb x y
  | JsNumber x, JsNumber y => if Req_dec_T x y then true else false
  | JsString x, JsString y => String.eqb x y
  | _, _ => false
  end.

(** [a !== b]. *)
Definition strict_not_equal (a b : JsValue) : bool :=
  negb (strict_equal a b).

(** Truthiness of a string: every string but the empty one. *)
Definition truthy_string (s : string) : bool :=
  match s with
  | EmptyString => false
  | String _ _ => true
  end.

(** [v || d] for an optional count: [undefined] and [0] are falsy. *)
Definition or_count (v : option nat) (d : nat) : nat :=
  match v with
  | Some n => if Nat.eqb n 0 then d else n
  | None => d
  end.

(** [v || d] for an optional measure. *)
Definition or_measure (v : option R) (d : R) : R :=
  match v with
  | Some r => if Req_dec_T r 0 then d else r
  | None => d
  end.

(** [v || d] for an optional string. *)
Definition or_string (v : option string) (d : string) : string :=
  match v with
  | Some s => if truthy_string s then s else d
  | None => d
  end.

(** What a call completes with: a value, or a thrown [TypeError]
    (reading a property of [undefined]). *)
Inductive Completion (A : Type) : Type :=
| Normal (a : A)
| ThrowTypeError.
Arguments Normal {A} a.
Arguments ThrowTypeError {A}.

Definition bind {A B : Type} (c : Completion A) (k : A -> Completion B)
  : Completion B :=
  match c with
  | Normal a => k a
  | ThrowTypeError => ThrowTypeError
  end.

End Js.

(** ** lsystem.js *)

Module LSys.

Import Js.

(** *** class LSystem *)

Record LSystem : Type := mkLSystem {
  axiom_ : string;
  rules : gmap string string;
  iterations : nat;
  currentString : string
}.

(** [constructor(axiom, rules, iterations = 3)]: an omitted iteration
    count is 3. *)
Definition constructor (axiom0 : string) (rules0 : gmap string string)
    (iterations0 : option nat) : LSystem :=
  {| axiom_ := axiom0;
     rules := rules0;
     iterations := match iterations0 with Some n => n | None => 3 end;
     currentString := axiom0 |}.

(** The body of the inner loop: what one [char] appends to
    [newString].  [this.rules[char]] is tested for truthiness, so a
    rule whose replacement is the empty string does not apply. *)
Definition replacement (rs : gmap string string) (char : ascii) : string :=
  match rs !! (String char EmptyString) with
  | Some r => if truthy_string r then r else String char EmptyString
  | None => String char EmptyString
  end.

(** [for (let char of this.currentString) newString += ...]. *)
Fixpoint rewrite_from (rs : gmap string string) (newString : string)
    (rest : string) : string :=
  match rest with
  | EmptyString => newString
  | String char rest' =>
      rewrite_from rs (newString +:+ replacement rs char) rest'
  end.

(** One pass of the outer loop. *)
Definition pass (rs : gmap string string) (current : string) : string :=
  rewrite_from rs "" current.

(** [for (let i = 0; i < this.iterations; i++)], from [current]. *)
Fixpoint passes (rs : gmap string string) (n : nat) (current : string)
  : string :=
  match n with
  | O => current
  | S n' => passes rs n' (pass rs current)
  end.

(** [iterate()]: the returned string and the engine afterwards. *)
Definition iterate (l : LSystem) : string * LSystem :=
  let result := passes (rules l) (iterations l) (axiom_ l) in
  (result,
   {| axiom_ := axiom_ l; rules := rules l; iterations := iterations l;
      currentString := result |}).

(** [getString()]. *)
Definition getString (l : LSystem) : string := currentString l.

(** [defaultPlantRules] and [defaultAxiom]. *)
Definition defaultPlantRules : gmap string string :=
  {[ "F" := "F[+F]F[-F]F" ]}.
Definition defaultAxiom : string := "F".

(** *** parseLSystemString *)

Local Open Scope R_scope.

(** A point [{ x, y, z }]. *)
Record Point : Type := mkPoint { px : R; py : R; pz : R }.

(** A command [{ type: 'line', from, to }]; ['line'] is the only type
    the walker emits. *)
Inductive TurtleCommand : Type :=
| Line (from to : Point).

(** An entry of the branch stack, [{ x, y, z, angle }]. *)
Record Saved : Type := mkSaved {
  sx : R; sy : R; sz : R; sangle : R
}.

(** The local variables of the walker.  The head of [stack] is the top
    of the JavaScript array used as a stack; [commands] is in emission
    order. *)
Record Turtle : Type := mkTurtle {
  x : R; y : R; z : R;
  currentAngle : R;
  stack : list Saved;
  commands : list TurtleCommand
}.

(** The state before the loop: at the origin, facing up. *)
Definition initial : Turtle :=
  {| x := 0; y := 0; z := 0; currentAngle := 0;
     stack := []; commands := [] |}.

(** [stack.pop()]: [undefined] on an empty array. *)
Definition pop (st : list Saved) : option (Saved * list Saved) :=
  match st with
  | [] => None
  | top :: rest => Some (top, rest)
  end.

(** The [switch (char)] of the loop body. *)
Definition step (angle stepSize : R) (t : Turtle) (char : ascii)
  : Completion Turtle :=
  if (char =? "F")%char || (char =? "G")%char then
    let newX := x t + sin (currentAngle t) * stepSize in
    let newY := y t + cos (currentAngle t) * stepSize in
    let newZ := z t in
    Normal {| x := newX; y := newY; z := newZ;
              currentAngle := currentAngle t;
              stack := stack t;
              commands := commands t ++
                [Line (mkPoint (x t) (y t) (z t))
                      (mkPoint newX newY newZ)] |}
  else if (char =? "+")%char then
    Normal {| x := x t; y := y t; z := z t;
              currentAngle := currentAngle t + angle;
              stack := stack t; commands := commands t |}
  else if (char =? "-")%char then
    Normal {| x := x t; y := y t; z := z t;
              currentAngle := currentAngle t - angle;
              stack := stack t; commands := commands t |}
  else if (char =? "&")%char then Normal t
  else if (char =? "^")%char then Normal t
  else if (char =? "\")%char then Normal t
  else if (char =? "/")%char then Normal t
  else if (char =? "|")%char then
    Normal {| x := x t; y := y t; z := z t;
              currentAngle := currentAngle t + PI;
              stack := stack t; commands := commands t |}
  else if (char =? "[")%char then
    Normal {| x := x t; y := y t; z := z t;
              currentAngle := currentAngle t;
              stack := mkSaved (x t) (y t) (z t) (currentAngle t)
                         :: stack t;
              commands := commands t |}
  else if (char =? "]")%char then
    if (0 <? length (stack t))%nat then
      match pop (stack t) with
      | Some (state, rest) =>
          Normal {| x := sx state; y := sy state; z := sz state;
                    currentAngle := sangle state;
                    stack := rest; commands := commands t |}
      | None => ThrowTypeError
      end
    else Normal t
  else Normal t.

(** [for (let i = 0; i < lstring.length; i++)] from the state [t]. *)
Fixpoint run (angle stepSize : R) (t : Turtle) (lstring : string)
  : Completion Turtle :=
  match lstring with
  | EmptyString => Normal t
  | String char rest =>
      bind (step angle stepSize t char)
           (fun t' => run angle stepSize t' rest)
  end.

Definition parseLSystemString (lstring : string) (angle stepSize : R)
  : Completion (list TurtleCommand) :=
  bind (run angle stepSize initial lstring)
       (fun t => Normal (commands t)).

(** The symbols that change the walker's state. *)
Definition acts (char : ascii) : bool :=
  existsb (Ascii.eqb char)
    ["F"; "G"; "+"; "-"; "|"; "["; "]"]%char.


(** The input without the symbols that [acts] rejects. *)
Fixpoint erase_ignored (s : string) : string :=
  match s with
  | EmptyString => EmptyString
  | String c s' =>
      if acts c then String c (erase_ignored s') else erase_ignored s'
  end.

(** [nested depth s]: every closing bracket of [s] finds an open
    branch, counting [depth] branches open at the start, and none is
    left open at the end. *)
Fixpoint nested (depth : nat) (s : string) : bool :=
  match s with
  | EmptyString => Nat.eqb depth 0
  | String c s' =>
      if (c =? "[")%char then nested (S depth) s'
      else if (c =? "]")%char then
        match depth with
        | O => false
        | S depth' => nested depth' s'
        end
      else nested depth s'
  end.

(** The symbols that draw a segment. *)
Definition draws (char : ascii) : bool :=
  (char =? "F")%char || (char =? "G")%char.

(** How many symbols of [s] draw a segment. *)
Fixpoint count_draws (s : string) : nat :=
  match s with
  | EmptyString => 0%nat
  | String c s' => ((if draws c then 1 else 0) + count_draws s')%nat
  end.

(** The start of the walk. *)
Definition origin : Point := mkPoint 0 0 0.

(** [unruled rs s]: no symbol of [s] has a rule that applies, either
    because [rs] has no such key or because its replacement is the
    empty string. *)
Fixpoint unruled (rs : gmap string string) (s : string) : Prop :=
  match s with
  | EmptyString => True
  | String c s' =>
      (rs !! String c EmptyString = None
       \/ rs !! String c EmptyString = Some EmptyString)
      /\ unruled rs s'
  end.

(** Where the walker stands. *)
Definition position_of (t : Turtle) : Point := mkPoint (x t) (y t) (z t).

(** Where the walker stood when an entry of the stack was pushed. *)
Definition saved_position (sv : Saved) : Point :=
  mkPoint (sx sv) (sy sv) (sz sv).

(** [flat_segment stepSize cmd]: the segment lies in the plane z = 0 and
    the square of its length is the square of [stepSize]. *)
Definition flat_segment (stepSize : R) (cmd : TurtleCommand) : Prop :=
  match cmd with
  | Line a b =>
      pz a = 0 /\ pz b = 0
      /\ (px b - px a) * (px b - px a) + (py b - py a) * (py b - py a)
         = stepSize * stepSize
  end.

(** [reachable cmds p]: [p] is the origin or the end of a segment of
    [cmds]. *)
Definition reachable (cmds : list TurtleCommand) (p : Point) : Prop :=
  p = origin \/ exists a, In (Line a p) cmds.

(** [rooted cmds]: every segment starts at the origin or at the end of
    a segment emitted before it. *)
Definition rooted (cmds : list TurtleCommand) : Prop :=
  forall k a b, nth_error cmds k = Some (Line a b) ->
                reachable (firstn k cmds) a.

End LSys.


(** ** buildingGrammar.js *)

Module Building.

Import Js.
Local Open Scope R_scope.

(** The [config] object handed to the constructor.  A key that is
    absent is [None]; [hasStairs] is kept as a raw value because the
    constructor compares it with [false] by [!==]. *)
Record BuildingConfig : Type := mkBuildingConfig {
  config_levels : option nat;
  config_roomsPerLevel : option nat;
  config_roomSize : option R;
  config_levelHeight : option R;
  config_wallThickness : option R;
  config_hasStairs : JsValue;
  config_roomLayout : option string
}.

(** The fields of a [BuildingGrammar] instance. *)
Record BuildingGrammar : Type := mkBuildingGrammar {
  levels : nat;
  roomsPerLevel : nat;
  roomSize : R;
  levelHeight : R;
  wallThickness : R;
  hasStairs : bool;
  roomLayout : string
}.

Definition constructor (config : BuildingConfig) : BuildingGrammar :=
  {| levels := or_count (config_levels config) 3;
     roomsPerLevel := or_count (config_roomsPerLevel config) 4;
     roomSize := or_measure (config_roomSize config) 4.0;
     levelHeight := or_measure (config_levelHeight config) 3.0;
     wallThickness := or_measure (config_wallThickness config) 0.2;
     hasStairs := strict_not_equal (config_hasStairs config) (JsBool false);
     roomLayout := or_string (config_roomLayout config) "grid" |}.

(** A room centre [{ x, z }]. *)
Record Position : Type := mkPosition { pos_x : R; pos_z : R }.

Inductive Direction : Type := north | south | east | west.

(** [{ to, direction }]. *)
Record Connection : Type := mkConnection {
  conn_to : string;
  conn_direction : Direction
}.

Record Room : Type := mkRoom {
  room_id : string;
  room_x : R;
  room_y : R;
  room_z : R;
  room_width : R;
  room_depth : R;
  room_height : R;
  room_level : nat;
  room_connections : list Connection
}.

(** [{ level, y, rooms }]. *)
Record Level : Type := mkLevel {
  level_index : nat;
  level_y : R;
  level_rooms : list Room
}.

Record Stair : Type := mkStair {
  stair_x : R;
  stair_y : R;
  stair_z : R;
  stair_width : R;
  stair_depth : R;
  stair_height : R;
  stair_level : nat
}.

(** [{ levels, stairs }]. *)
Record BuildingModel : Type := mkBuildingModel {
  building_levels : list Level;
  building_stairs : list Stair
}.

(** [array.forEach((item, index) => ...)] with the state the callback
    mutates threaded through: [f state item index]. *)
Fixpoint forEach_from {A St : Type} (f : St -> A -> nat -> St)
    (index : nat) (items : list A) (state : St) : St :=
  match items with
  | [] => state
  | item :: items' => forEach_from f (S index) items' (f state item index)
  end.

Definition forEach {A St : Type} (f : St -> A -> nat -> St)
    (items : list A) (state : St) : St :=
  forEach_from f 0 items state.

(** [Math.ceil(Math.sqrt(n))] of a count. *)
Definition ceil_sqrt (n : nat) : nat := Nat.sqrt_up n.

(** [Math.ceil(n / c)] of two counts, for [0 < c]. *)
Definition ceil_div (n c : nat) : nat := ((n + (c - 1)) / c)%nat.

(** The template literal [`level-${levelIndex}-room-${index}`]. *)
Definition roomId (levelIndex index : nat) : string :=
  "level-" +:+ pretty levelIndex +:+ "-room-" +:+ pretty index.

(** [generateRoomPositions(levelIndex)]: the [for] loops run [i] over
    [0 .. roomsPerLevel - 1]. *)
Definition generateRoomPositions (g : BuildingGrammar) (levelIndex : nat)
  : list Position :=
  let spacing := roomSize g * 1.1 in
  let n := roomsPerLevel g in
  if String.eqb (roomLayout g) "grid" then
    let cols := ceil_sqrt n in
    let rows := ceil_div n cols in
    map (fun i =>
           let col := (i mod cols)%nat in
           let row := (i / cols)%nat in
           {| pos_x := (INR col - (INR cols - 1) / 2) * spacing;
              pos_z := (INR row - (INR rows - 1) / 2) * spacing |})
        (seq 0 n)
  else if String.eqb (roomLayout g) "linear" then
    map (fun i =>
           {| pos_x := (INR i - (INR n - 1) / 2) * spacing;
              pos_z := 0 |})
        (seq 0 n)
  else if String.eqb (roomLayout g) "radial" then
    let angleStep := (PI * 2) / INR n in
    let radius := spacing * 1.5 in
    map (fun i =>
           let angle := INR i * angleStep in
           {| pos_x := cos angle * radius;
              pos_z := sin angle * radius |})
        (seq 0 n)
  else
    map (fun i =>
           {| pos_x := (INR (i mod 3) - 1) * spacing;
              pos_z := (INR (i / 3) - 1) * spacing |})
        (seq 0 n).

(** [getDirection(from, to)]. *)
Definition getDirection (from to : Position) : Direction :=
  let dx := pos_x to - pos_x from in
  let dz := pos_z to - pos_z from in
  if Rgt_dec (Rabs dx) (Rabs dz) then
    if Rgt_dec dx 0 then east else west
  else
    if Rgt_dec dz 0 then south else north.

(** The [distance] of the inner callback. *)
Definition distance (pos otherPos : Position) : R :=
  sqrt ((pos_x pos - pos_x otherPos) ^ 2
        + (pos_z pos - pos_z otherPos) ^ 2).

(** [connections.some(c => c.to === target)]. *)
Definition some_to (connections : list Connection) (target : string)
  : bool :=
  existsb (fun c => String.eqb (conn_to c) target) connections.

(** The inner callback, on the connection list of the room being
    built. *)
Definition connect (g : BuildingGrammar) (levelIndex : nat)
    (pos : Position) (index : nat)
    (connections : list Connection) (otherPos : Position)
    (otherIndex : nat) : list Connection :=
  if Nat.eqb index otherIndex then connections
  else if Rlt_dec (distance pos otherPos) (roomSize g * 1.2) then
    let direction := getDirection pos otherPos in
    if negb (some_to connections (roomId levelIndex otherIndex)) then
      connections ++
        [{| conn_to := roomId levelIndex otherIndex;
            conn_direction := direction |}]
    else connections
  else connections.

(** The [room] object the outer callback builds for the position
    [pos] of index [index]. *)
Definition makeRoom (g : BuildingGrammar) (levelIndex : nat)
    (positions : list Position) (pos : Position) (index : nat) : Room :=
  {| room_id := roomId levelIndex index;
     room_x := pos_x pos;
     room_y := INR levelIndex * levelHeight g;
     room_z := pos_z pos;
     room_width := roomSize g;
     room_depth := roomSize g;
     room_height := levelHeight g;
     room_level := levelIndex;
     room_connections :=
       forEach (connect g levelIndex pos index) positions [] |}.

(** The outer callback: [rooms.push(room)]. *)
Definition addRoom (g : BuildingGrammar) (levelIndex : nat)
    (positions : list Position)
    (rooms : list Room) (pos : Position) (index : nat) : list Room :=
  rooms ++ [makeRoom g levelIndex positions pos index].

(** [generateLevel(levelIndex)]. *)
Definition generateLevel (g : BuildingGrammar) (levelIndex : nat) : Level :=
  let y := INR levelIndex * levelHeight g in
  let positions := generateRoomPositions g levelIndex in
  {| level_index := levelIndex;
     level_y := y;
     level_rooms := forEach (addRoom g levelIndex positions) positions [] |}.

(** [generateStairs(levelIndex, levelData)]: [levelData.rooms[0]] is
    [undefined] on an empty room list, and reading its [x] throws. *)
Definition generateStairs (g : BuildingGrammar) (levelIndex : nat)
    (levelData : Level) : Completion Stair :=
  match level_rooms levelData !! 0%nat with
  | Some firstRoom =>
      Normal {| stair_x := room_x firstRoom;
                stair_y := level_y levelData;
                stair_z := room_z firstRoom;
                stair_width := 1.0;
                stair_depth := 1.0;
                stair_height := levelHeight g;
                stair_level := levelIndex |}
  | None => ThrowTypeError
  end.

(** The body of the loop of [generate], for one [level].  On counts,
    [level < this.levels - 1] is [level <? levels - 1] with the
    truncated subtraction: [levels] is never 0 after the
    constructor. *)
Definition generate_body (g : BuildingGrammar) (building : BuildingModel)
    (level : nat) : Completion BuildingModel :=
  let levelData := generateLevel g level in
  let pushed :=
    {| building_levels := building_levels building ++ [levelData];
       building_stairs := building_stairs building |} in
  if hasStairs g && (level <? levels g - 1)%nat then
    bind (generateStairs g level levelData)
         (fun stair =>
            Normal {| building_levels := building_levels pushed;
                      building_stairs :=
                        building_stairs pushed ++ [stair] |})
  else Normal pushed.

(** [count] more turns of the loop, starting at [level]. *)
Fixpoint generate_loop (g : BuildingGrammar) (count level : nat)
    (building : BuildingModel) : Completion BuildingModel :=
  match count with
  | O => Normal building
  | S count' =>
      bind (generate_body g building level)
           (generate_loop g count' (S level))
  end.

(** [generate()]. *)
Definition generate (g : BuildingGrammar) : Completion BuildingModel :=
  generate_loop g (levels g) 0
    {| building_levels := []; building_stairs := [] |}.

(** *** Notions used to state the properties *)

(** The configuration object with every key absent. *)
Definition defaultConfig : BuildingConfig :=
  {| config_levels := None;
     config_roomsPerLevel := None;
     config_roomSize := None;
     config_levelHeight := None;
     config_wallThickness := None;
     config_hasStairs := JsUndefined;
     config_roomLayout := None |}.

(** The centre of a room, as a position of the level's plan. *)
Definition room_position (r : Room) : Position :=
  {| pos_x := room_x r; pos_z := room_z r |}.

(** [placed_at g level st]: [st] is the stair that leaves [level], put
    on the first room of that level. *)
Definition placed_at (g : BuildingGrammar) (level : nat) (st : Stair)
  : Prop :=
  exists firstRoom,
    level_rooms (generateLevel g level) !! 0%nat = Some firstRoom
    /\ stair_x st = room_x firstRoom
    /\ stair_z st = room_z firstRoom
    /\ stair_y st = level_y (generateLevel g level)
    /\ stair_width st = 1.0 /\ stair_depth st = 1.0
    /\ stair_height st = levelHeight g
    /\ stair_level st = level.

(** What the inner loop has built after the positions of index below
    [k]: no target twice; every target is another index below [k];
    and every other index below [k] that is near enough is a target. *)
Definition connections_upto (g : BuildingGrammar) (levelIndex : nat)
    (positions : list Position) (pos : Position) (index : nat)
    (k : nat) (connections : list Connection) : Prop :=
  NoDup (conn_to <$> connections)
  /\ (forall c, c ∈ connections ->
        exists j, (j < k)%nat /\ j <> index
                  /\ conn_to c = roomId levelIndex j)
  /\ (forall j otherPos,
        (j < k)%nat -> j <> index ->
        positions !! j = Some otherPos ->
        distance pos otherPos < roomSize g * 1.2 ->
        exists c, c ∈ connections /\ conn_to c = roomId levelIndex j).

(** [connected_to a b]: the room [a] lists a connection whose target
    is the id of [b]. *)
Definition connected_to (a b : Room) : Prop :=
  exists c, c ∈ room_connections a /\ conn_to c = room_id b.

(** The direction one faces after turning around. *)
Definition opposite (d : Direction) : Direction :=
  match d with
  | north => south
  | south => north
  | east => west
  | west => east
  end.

(** [conn.direction === direction] on the four direction names. *)
Definition direction_eqb (d1 d2 : Direction) : bool :=
  match d1, d2 with
  | north, north | south, south | east, east | west, west => true
  | _, _ => false
  end.

(** Two cells of a lattice, given by column and row, that share a
    side. *)
Definition adjacent_cells (ci ri cj rj : nat) : Prop :=
  (ri = rj /\ (ci = S cj \/ cj = S ci))
  \/ (ci = cj /\ (ri = S rj \/ rj = S ri)).

(** [no_dash s]: the character - does not occur in [s]. *)
Fixpoint no_dash (s : string) : Prop :=
  match s with
  | EmptyString => True
  | String c s' => c <> "-"%char /\ no_dash s'
  end.

End Building.

(** ** flocking.js *)

Module Flocking.

Local Open Scope R_scope.

(** *** THREE.Vector3

    The vector class comes from the three.js library; the methods the
    simulator calls are written here as three.js defines them.  A
    method that mutates its receiver returns the new value. *)

Record Vector3 : Type := mkVector3 { vx : R; vy : R; vz : R }.

(** [new THREE.Vector3()]. *)
Definition zero : Vector3 := mkVector3 0 0 0.

Definition add (a b : Vector3) : Vector3 :=
  mkVector3 (vx a + vx b) (vy a + vy b) (vz a + vz b).

(** [a.sub(b)], and [subVectors(a, b)] on a fresh vector. *)
Definition sub (a b : Vector3) : Vector3 :=
  mkVector3 (vx a - vx b) (vy a - vy b) (vz a - vz b).

Definition multiplyScalar (a : Vector3) (s : R) : Vector3 :=
  mkVector3 (vx a * s) (vy a * s) (vz a * s).

(** [divideScalar(s)] is [multiplyScalar(1 / s)]. *)
Definition divideScalar (a : Vector3) (s : R) : Vector3 :=
  multiplyScalar a (1 / s).

Definition length (a : Vector3) : R :=
  sqrt (vx a * vx a + vy a * vy a + vz a * vz a).

(** [l || 1] on a number. *)
Definition or_one (l : R) : R := if Req_dec_T l 0 then 1 else l.

(** [normalize()] is [divideScalar(length() || 1)]. *)
Definition normalize (a : Vector3) : Vector3 :=
  divideScalar a (or_one (length a)).

(** [clampLength(min, max)]: divide by [length || 1], multiply by the
    length clamped into [min, max]. *)
Definition clampLength (a : Vector3) (min max : R) : Vector3 :=
  let l := length a in
  multiplyScalar (divideScalar a (or_one l)) (Rmax min (Rmin max l)).

Definition distanceTo (a b : Vector3) : R :=
  let dx := vx a - vx b in
  let dy := vy a - vy b in
  let dz := vz a - vz b in
  sqrt (dx * dx + dy * dy + dz * dz).

(** *** class Boid *)

Record Boid : Type := mkBoid {
  position : Vector3;
  velocity : Vector3;
  acceleration : Vector3
}.

Definition Boid_constructor (position0 velocity0 : Vector3) : Boid :=
  {| position := position0; velocity := velocity0; acceleration := zero |}.

(** [Boid.update(deltaTime)].  The speed limit is the local constant
    [maxSpeed = 5.0] of the method. *)
Definition Boid_update (b : Boid) (deltaTime : R) : Boid :=
  let velocity1 := add (velocity b) (multiplyScalar (acceleration b) deltaTime) in
  let maxSpeed := 5.0 in
  let velocity2 :=
    if Rgt_dec (length velocity1) maxSpeed
    then multiplyScalar (normalize velocity1) maxSpeed
    else velocity1 in
  {| position := add (position b) (multiplyScalar velocity2 deltaTime);
     velocity := velocity2;
     acceleration := multiplyScalar (acceleration b) 0 |}.

Definition applyForce (b : Boid) (force : Vector3) : Boid :=
  {| position := position b; velocity := velocity b;
     acceleration := add (acceleration b) force |}.

(** *** class FlockingSystem *)

Record Bounds : Type := mkBounds { width : R; height : R; depth : R }.

Record Config : Type := mkConfig {
  separation : R;
  alignment : R;
  cohesion_weight : R;
  separationRadius : R;
  neighborRadius : R;
  maxSpeed : R;
  maxForce : R;
  bounds : Bounds;
  center : Vector3;
  planeHeight : R
}.

(** A configuration object with some keys absent: the argument of the
    constructor and of [updateConfig]. *)
Record PartialConfig : Type := mkPartialConfig {
  opt_separation : option R;
  opt_alignment : option R;
  opt_cohesion : option R;
  opt_separationRadius : option R;
  opt_neighborRadius : option R;
  opt_maxSpeed : option R;
  opt_maxForce : option R;
  opt_bounds : option Bounds;
  opt_center : option Vector3;
  opt_planeHeight : option R
}.

(** [v ?? d]. *)
Definition nullish {A : Type} (v : option A) (d : A) : A :=
  match v with Some a => a | None => d end.

(** The state of a system.  A boid is an object shared between the
    caller and the array [boids]: its identity is its index in
    [boids]. *)
Record FlockingSystem : Type := mkFlockingSystem {
  boids : list Boid;
  config : Config
}.

Definition FlockingSystem_constructor (c : PartialConfig) : FlockingSystem :=
  {| boids := [];
     config :=
       {| separation := nullish (opt_separation c) 1.5;
          alignment := nullish (opt_alignment c) 1.0;
          cohesion_weight := nullish (opt_cohesion c) 1.0;
          separationRadius := nullish (opt_separationRadius c) 2.0;
          neighborRadius := nullish (opt_neighborRadius c) 5.0;
          maxSpeed := nullish (opt_maxSpeed c) 5.0;
          maxForce := nullish (opt_maxForce c) 0.1;
          bounds := nullish (opt_bounds c) (mkBounds 50 50 50);
          center := nullish (opt_center c) (mkVector3 0 50 0);
          planeHeight := nullish (opt_planeHeight c) 50 |} |}.

Definition addBoid (s : FlockingSystem) (b : Boid) : FlockingSystem :=
  {| boids := boids s ++ [b]; config := config s |}.

(** [updateConfig(newConfig)]: the keys of [newConfig] replace those
    of the live configuration. *)
Definition updateConfig (s : FlockingSystem) (c : PartialConfig)
  : FlockingSystem :=
  let old := config s in
  {| boids := boids s;
     config :=
       {| separation := nullish (opt_separation c) (separation old);
          alignment := nullish (opt_alignment c) (alignment old);
          cohesion_weight := nullish (opt_cohesion c) (cohesion_weight old);
          separationRadius :=
            nullish (opt_separationRadius c) (separationRadius old);
          neighborRadius := nullish (opt_neighborRadius c) (neighborRadius old);
          maxSpeed := nullish (opt_maxSpeed c) (maxSpeed old);
          maxForce := nullish (opt_maxForce c) (maxForce old);
          bounds := nullish (opt_bounds c) (bounds old);
          center := nullish (opt_center c) (center old);
          planeHeight := nullish (opt_planeHeight c) (planeHeight old) |} |}.

(** [for (const other of this.boids) { if (other === boid) continue; ... }]:
    a fold over the array that skips the entry whose index is [self],
    the index of [boid]. *)
Fixpoint scan_from {St : Type} (f : St -> Boid -> St) (self index : nat)
    (others : list Boid) (state : St) : St :=
  match others with
  | [] => state
  | other :: others' =>
      scan_from f self (S index) others'
        (if Nat.eqb index self then state else f state other)
  end.

Definition scan {St : Type} (f : St -> Boid -> St) (s : FlockingSystem)
    (self : nat) (state : St) : St :=
  scan_from f self 0 (boids s) state.

(** The bodies of the three neighbour loops, on [(accumulator, count)]. *)
Definition separate_body (radius : R) (boid : Boid)
    (st : Vector3 * nat) (other : Boid) : Vector3 * nat :=
  let d := distanceTo (position boid) (position other) in
  if Rgt_dec d 0 then
    if Rlt_dec d radius then
      let diff :=
        divideScalar (normalize (sub (position boid) (position other))) d in
      (add (fst st) diff, S (snd st))
    else st
  else st.

Definition align_body (radius : R) (boid : Boid)
    (st : Vector3 * nat) (other : Boid) : Vector3 * nat :=
  let d := distanceTo (position boid) (position other) in
  if Rgt_dec d 0 then
    if Rlt_dec d radius then (add (fst st) (velocity other), S (snd st))
    else st
  else st.

Definition cohesion_body (radius : R) (boid : Boid)
    (st : Vector3 * nat) (other : Boid) : Vector3 * nat :=
  let d := distanceTo (position boid) (position other) in
  if Rgt_dec d 0 then
    if Rlt_dec d radius then (add (fst st) (position other), S (snd st))
    else st
  else st.

(** [separate(boid)], for the boid of index [self]. *)
Definition separate (s : FlockingSystem) (self : nat) (boid : Boid)
  : Vector3 :=
  let c := config s in
  let '(steer, count) :=
    scan (separate_body (separationRadius c) boid) s self (zero, 0%nat) in
  if (0 <? count)%nat then
    let steer1 := divideScalar steer (INR count) in
    let steer2 := normalize steer1 in
    let steer3 := multiplyScalar steer2 (maxSpeed c) in
    let steer4 := sub steer3 (velocity boid) in
    clampLength steer4 0 (maxForce c)
  else steer.

(** [align(boid)]. *)
Definition align (s : FlockingSystem) (self : nat) (boid : Boid)
  : Vector3 :=
  let c := config s in
  let '(sum, count) :=
    scan (align_body (neighborRadius c) boid) s self (zero, 0%nat) in
  if (0 <? count)%nat then
    let sum1 := divideScalar sum (INR count) in
    let sum2 := normalize sum1 in
    let sum3 := multiplyScalar sum2 (maxSpeed c) in
    let steer := sub sum3 (velocity boid) in
    clampLength steer 0 (maxForce c)
  else zero.

(** [cohesion(boid)]. *)
Definition cohesion (s : FlockingSystem) (self : nat) (boid : Boid)
  : Vector3 :=
  let c := config s in
  let '(sum, count) :=
    scan (cohesion_body (neighborRadius c) boid) s self (zero, 0%nat) in
  if (0 <? count)%nat then
    let sum1 := divideScalar sum (INR count) in
    let desired := sub sum1 (position boid) in
    let desired1 := normalize desired in
    let desired2 := multiplyScalar desired1 (maxSpeed c) in
    let steer := sub desired2 (velocity boid) in
    clampLength steer 0 (maxForce c)
  else zero.

(** The raw [steer] of [boundaries(boid)], before it is scaled: one
    component per axis, set by the two tests on that axis. *)
Definition boundary_direction (c : Config) (boid : Boid) : Vector3 :=
  let margin := 5.0 in
  let p := position boid in
  let sx :=
    if Rlt_dec (vx p) (vx (center c) - width (bounds c) / 2 + margin) then 1
    else if Rgt_dec (vx p) (vx (center c) + width (bounds c) / 2 - margin)
         then -1 else 0 in
  let sz :=
    if Rlt_dec (vz p) (vz (center c) - depth (bounds c) / 2 + margin) then 1
    else if Rgt_dec (vz p) (vz (center c) + depth (bounds c) / 2 - margin)
         then -1 else 0 in
  let sy :=
    if Rlt_dec (vy p) (planeHeight c - margin) then 1
    else if Rgt_dec (vy p) (planeHeight c + margin) then -1 else 0 in
  mkVector3 sx sy sz.

(** [boundaries(boid)]. *)
Definition boundaries (s : FlockingSystem) (boid : Boid) : Vector3 :=
  let c := config s in
  let steer := boundary_direction c boid in
  if Rgt_dec (length steer) 0 then
    let steer1 := normalize steer in
    let steer2 := multiplyScalar steer1 (maxSpeed c) in
    let steer3 := sub steer2 (velocity boid) in
    clampLength steer3 0 (maxForce c)
  else steer.

(** The four [applyForce] calls of [update] on the boid of index
    [self]: the boid as it is handed to [boid.update]. *)
Definition steer_boid (s : FlockingSystem) (self : nat) (boid : Boid)
  : Boid :=
  let c := config s in
  let sep := multiplyScalar (separate s self boid) (separation c) in
  let ali := multiplyScalar (align s self boid) (alignment c) in
  let coh := multiplyScalar (cohesion s self boid) (cohesion_weight c) in
  let bnd := multiplyScalar (boundaries s boid) 1.0 in
  applyForce (applyForce (applyForce (applyForce boid sep) ali) coh) bnd.

(** One turn of the loop of [update]: the boid of index [self] is
    steered and integrated in place. *)
Definition update_boid (deltaTime : R) (s : FlockingSystem) (self : nat)
  : FlockingSystem :=
  match boids s !! self with
  | Some boid =>
      {| boids := <[self := Boid_update (steer_boid s self boid) deltaTime]>
                    (boids s);
         config := config s |}
  | None => s
  end.

(** [update(deltaTime)]: the boids in array order, each one seeing the
    boids before it already moved. *)
Definition update (s : FlockingSystem) (deltaTime : R) : FlockingSystem :=
  fold_left (update_boid deltaTime) (seq 0 (List.length (boids s))) s.

(** *** Notions used to state the properties *)

(** [{}], the default argument of the constructor. *)
Definition emptyConfig : PartialConfig :=
  {| opt_separation := None; opt_alignment := None; opt_cohesion := None;
     opt_separationRadius := None; opt_neighborRadius := None;
     opt_maxSpeed := None; opt_maxForce := None;
     opt_bounds := None; opt_center := None; opt_planeHeight := None |}.

(** [{ maxSpeed: v }]. *)
Definition maxSpeedConfig (v : R) : PartialConfig :=
  {| opt_separation := None; opt_alignment := None; opt_cohesion := None;
     opt_separationRadius := None; opt_neighborRadius := None;
     opt_maxSpeed := Some v; opt_maxForce := None;
     opt_bounds := None; opt_center := None; opt_planeHeight := None |}.

(** [deltaTimes] successive calls of [update]. *)
Definition updates (s : FlockingSystem) (deltaTimes : list R)
  : FlockingSystem :=
  fold_left update deltaTimes s.

(** The six tests of [boundaries]: the boid is less than the margin
    inside a horizontal bound (or beyond it), or more than the margin
    away from the plane height. *)
Definition near_bounds (c : Config) (boid : Boid) : Prop :=
  let p := position boid in
  vx p < vx (center c) - width (bounds c) / 2 + 5.0
  \/ vx p > vx (center c) + width (bounds c) / 2 - 5.0
  \/ vz p < vz (center c) - depth (bounds c) / 2 + 5.0
  \/ vz p > vz (center c) + depth (bounds c) / 2 - 5.0
  \/ vy p < planeHeight c - 5.0
  \/ vy p > planeHeight c + 5.0.

End Flocking.

(** ** createBuilding.js: which walls a room gets *)

Module BuildingMesh.

Import Building.

(** [hasConnection(room, direction, allRooms)]: some connection of the
    room has that direction and a target that is the id of a room of
    [allRooms]. *)
Definition hasConnection (room : Room) (direction : Direction)
    (allRooms : list Room) : bool :=
  existsb
    (fun conn =>
       if direction_eqb (conn_direction conn) direction
       then existsb (fun r => String.eqb (room_id r) (conn_to conn)) allRooms
       else false)
    (room_connections room).

(** The sides of a room for which [createBuilding] adds a wall mesh, in
    the order of its four tests: a wall is built on a side unless
    [hasConnection] holds for it. *)
Definition walls (room : Room) (allRooms : list Room) : list Direction :=
  List.filter (fun d => negb (hasConnection room d allRooms))
              [north; south; east; west].

End BuildingMesh.

(** ** createPlant.js: the branches built from the walker's commands *)

Module Plant.

Import Js LSys.
Local Open Scope R_scope.

(** The arguments [createPlant] gives to [THREE.CylinderGeometry] for
    one branch, and where it puts the mesh. *)
Record Cylinder : Type := mkCylinder {
  radiusTop : R;
  radiusBottom : R;
  height : R;
  midPoint : Point
}.

(** [Math.sqrt(p.x * p.x + p.y * p.y + p.z * p.z)], the [fromDist] and
    [toDist] of the first pass. *)
Definition distFromRoot (p : Point) : R :=
  sqrt (px p * px p + py p * py p + pz p * pz p).

(** [direction.length()] for the segment of a command. *)
Definition segmentLength (cmd : TurtleCommand) : R :=
  match cmd with
  | Line from to =>
      Flocking.length
        (Flocking.mkVector3 (px to - px from) (py to - py from)
                            (pz to - pz from))
  end.

(** The callback of the first pass on one command: no mesh for a
    segment shorter than 0.001, else a cylinder that is thicker near
    the root, with a floor on each radius. *)
Definition branch (branchThickness : R) (cmd : TurtleCommand)
  : option Cylinder :=
  match cmd with
  | Line from to =>
      let length := segmentLength cmd in
      if Rlt_dec length 0.001 then None
      else
        let fromDist := distFromRoot from in
        let toDist := distFromRoot to in
        let baseThickness := branchThickness * (1 - fromDist * 0.1) in
        let tipThickness := branchThickness * (1 - toDist * 0.1) in
        let finalBaseThickness := Rmax baseThickness (branchThickness * 0.3) in
        let finalTipThickness := Rmax tipThickness (branchThickness * 0.2) in
        Some {| radiusTop := finalBaseThickness;
                radiusBottom := finalTipThickness;
                height := length;
                midPoint := mkPoint ((px from + px to) / 2)
                                    ((py from + py to) / 2)
                                    ((pz from + pz to) / 2) |}
  end.

(** The branch meshes of the first pass, in the order they are added to
    the group. *)
Definition branches (branchThickness : R) (commands : list TurtleCommand)
  : list Cylinder :=
  omap (branch branchThickness) commands.

(** The first pass of [createPlant] on the string of an L-system:
    [parseLSystemString], then the branches. *)
Definition plantBranches (branchThickness : R) (resultString : string)
    (angle stepSize : R) : Completion (list Cylinder) :=
  bind (parseLSystemString resultString angle stepSize)
       (fun commands => Normal (branches branchThickness commands)).

End Plant.

(** ** buildingGrammar.js with counts of either sign *)

Module BuildingCounts.

Import Js Building.
Local Open Scope R_scope.

(** A count as a caller may write it: an integer of either sign, or
    NaN. *)
Inductive Count : Type :=
  | Integer (n : Z)
  | NaN.

(** A [config] object whose counts are of type [Count], where
    [BuildingConfig] has natural numbers. *)
Record IntegerConfig : Type := mkIntegerConfig {
  integer_levels : option Count;
  integer_roomsPerLevel : option Count;
  integer_roomSize : option R;
  integer_levelHeight : option R;
  integer_wallThickness : option R;
  integer_hasStairs : JsValue;
  integer_roomLayout : option string
}.

(** [v || d] for an optional count and an integer default:
    [undefined], [NaN] and [0] are falsy, a negative integer is truthy
    and is kept. *)
Definition or_integer (v : option Count) (d : Z) : Z :=
  match v with
  | Some (Integer n) => if Z.eqb n 0 then d else n
  | Some NaN => d
  | None => d
  end.

(** [this.levels] and [this.roomsPerLevel] after the constructor. *)
Definition stored_levels (config : IntegerConfig) : Z :=
  or_integer (integer_levels config) 3.

Definition stored_roomsPerLevel (config : IntegerConfig) : Z :=
  or_integer (integer_roomsPerLevel config) 4.

(** How many times [for (let i = 0; i < count; i++)] runs its body:
    [count] times for a positive integer, never for another integer nor
    for [NaN], with which [i < count] is false. *)
Definition turns (count : Count) : nat :=
  match count with
  | Integer n => Z.to_nat n
  | NaN => 0%nat
  end.

(** [g.levels = levels0; g.roomsPerLevel = roomsPerLevel0] for counts
    set directly.  The class uses the two counts as the bounds of
    [for (let i = 0; i < count; i++)] loops, and otherwise only in the
    bodies of those loops ([level < this.levels - 1] in the loop over
    the levels; the columns, rows and angle step of a layout in the
    loop over the rooms): a [BuildingGrammar] records of a count the
    number of turns it allows. *)
Definition withCounts (g : BuildingGrammar) (levels0 roomsPerLevel0 : Count)
  : BuildingGrammar :=
  {| levels := turns levels0;
     roomsPerLevel := turns roomsPerLevel0;
     roomSize := roomSize g;
     levelHeight := levelHeight g;
     wallThickness := wallThickness g;
     hasStairs := hasStairs g;
     roomLayout := roomLayout g |}.

(** The constructor on a configuration with integer counts. *)
Definition constructor (config : IntegerConfig) : BuildingGrammar :=
  {| levels := turns (Integer (stored_levels config));
     roomsPerLevel := turns (Integer (stored_roomsPerLevel config));
     roomSize := or_measure (integer_roomSize config) 4.0;
     levelHeight := or_measure (integer_levelHeight config) 3.0;
     wallThickness := or_measure (integer_wallThickness config) 0.2;
     hasStairs :=
       strict_not_equal (integer_hasStairs config) (JsBool false);
     roomLayout := or_string (integer_roomLayout config) "grid" |}.

End BuildingCounts.

(** * Facts on real numbers used below *)

Module RealFacts.

Local Open Scope R_scope.

Lemma sqrt_below (a b : R) : 0 <= a -> 0 < b -> a < b * b -> sqrt a < b.
Proof.
  intros Ha Hb Hab. rewrite <- (sqrt_square b) by lra.
  apply sqrt_lt_1; nra.
Qed.

Lemma sqrt_not_below (a b : R) : 0 <= b -> b * b <= a -> ~ sqrt a < b.
Proof.
  intros Hb Hab Hlt.
  assert (sqrt (b * b) <= sqrt a) as H by (apply sqrt_le_1; nra).
  rewrite sqrt_square in H by lra. lra.
Qed.

End RealFacts.

(** * Properties of the rewriting engine and of the turtle walker *)

Module LSysProofs.

Import Js LSys.

Lemma append_empty_l (s : string) : "" +:+ s = s.
Proof. reflexivity. Qed.

Lemma append_cons (c : ascii) (s t : string) :
  String c s +:+ t = String c (s +:+ t).
Proof. reflexivity. Qed.

Lemma append_empty_r (s : string) : s +:+ "" = s.
Proof.
  induction s as [|c s IH]; [reflexivity|].
  rewrite append_cons, IH. reflexivity.
Qed.

Lemma append_assoc (s1 s2 s3 : string) :
  (s1 +:+ s2) +:+ s3 = s1 +:+ (s2 +:+ s3).
Proof.
  induction s1 as [|c s1 IH]; [reflexivity|].
  rewrite !append_cons, IH. reflexivity.
Qed.

(** The inner loop appends to what it was given. *)
Lemma rewrite_from_app (rs : gmap string string) (rest acc : string) :
  rewrite_from rs acc rest = acc +:+ pass rs rest.
Proof.
  unfold pass. revert acc.
  induction rest as [|c rest IH]; intros acc; simpl.
  - symmetry. apply append_empty_r.
  - rewrite append_empty_l.
    rewrite (IH (acc +:+ replacement rs c)), (IH (replacement rs c)).
    apply append_assoc.
Qed.

(** A pass rewrites the first symbol and then the rest. *)
Lemma pass_cons (rs : gmap string string) (c : ascii) (rest : string) :
  pass rs (String c rest) = replacement rs c +:+ pass rs rest.
Proof.
  unfold pass at 1. simpl. rewrite append_empty_l.
  apply rewrite_from_app.
Qed.

(** [iterate] depends on the engine only through its axiom, its rules
    and its iteration count: whatever [currentString] holds, the
    result is the same. *)
Lemma iterate_ignores_currentString (l : LSystem) (stale : string) :
  iterate {| axiom_ := axiom_ l; rules := rules l;
             iterations := iterations l; currentString := stale |}
  = iterate l.
Proof. reflexivity. Qed.

(** C3.  Whatever the axiom, the rule set and the iteration count, a
    second call of [iterate] on the same engine returns the string the
    first call returned: each call starts again from the stored axiom,
    not from the string the previous call left in [currentString]. *)
Theorem iterate_twice_same_string
    (axiom0 : string) (rules0 : gmap string string)
    (iterations0 : option nat) :
  let engine := constructor axiom0 rules0 iterations0 in
  let first := iterate engine in
  let second := iterate (snd first) in
  fst second = fst first
  /\ snd second = snd first
  /\ getString (snd second) = fst first.
Proof.
  cbv zeta. unfold iterate. simpl. auto.
Qed.

(** C8.  With axiom "F" and the rule F -> "F[+F]F[-F]F", one iteration
    returns "F[+F]F[-F]F" and zero iterations return "F". *)
Theorem growth_example :
  fst (iterate (constructor "F" {[ "F" := "F[+F]F[-F]F" ]} (Some 1)))
    = "F[+F]F[-F]F"
  /\ fst (iterate (constructor "F" {[ "F" := "F[+F]F[-F]F" ]} (Some 0)))
    = "F"
  /\ defaultPlantRules = {[ "F" := "F[+F]F[-F]F" ]}
  /\ defaultAxiom = "F".
Proof.
  repeat split; vm_compute; reflexivity.
Qed.

(** *** The turtle walker *)

Local Open Scope R_scope.

Lemma run_app (angle stepSize : R) (s1 s2 : string) (t : Turtle) :
  run angle stepSize t (s1 +:+ s2)
  = bind (run angle stepSize t s1) (fun t' => run angle stepSize t' s2).
Proof.
  revert t. induction s1 as [|c s1 IH]; intros t; [reflexivity|].
  rewrite append_cons. simpl.
  destruct (step angle stepSize t c) as [t'|]; simpl; [apply IH|reflexivity].
Qed.

(** No symbol makes the loop body throw. *)
Lemma step_normal (angle stepSize : R) (t : Turtle) (char : ascii) :
  exists t', step angle stepSize t char = Normal t'.
Proof.
  unfold step.
  destruct t as [x0 y0 z0 a0 [|top rest] cmds]; simpl;
    repeat match goal with
           | |- context [if ?b then _ else _] => destruct b
           end; eauto.
Qed.

Lemma run_normal (angle stepSize : R) (lstring : string) (t : Turtle) :
  exists t', run angle stepSize t lstring = Normal t'.
Proof.
  revert t. induction lstring as [|c rest IH]; intros t; simpl; eauto.
  destruct (step_normal angle stepSize t c) as [t' ->]. simpl. apply IH.
Qed.

(** A symbol that is not one of F G + - | [ ] changes nothing. *)
Lemma step_ignored (angle stepSize : R) (t : Turtle) (char : ascii) :
  acts char = false -> step angle stepSize t char = Normal t.
Proof.
  unfold acts, step. simpl. intros H.
  repeat (apply orb_false_elim in H; destruct H as [?E H]).
  rewrite E, E0, E1, E2, E3, E4, E5. simpl.
  repeat match goal with
         | |- context [if ?b then _ else _] => destruct b
         end; reflexivity.
Qed.

(** A closing bracket on an empty stack changes nothing. *)
Lemma step_unmatched_close (angle stepSize : R) (t : Turtle) :
  stack t = [] -> step angle stepSize t "]" = Normal t.
Proof.
  intros H. unfold step. simpl. rewrite H. reflexivity.
Qed.

Lemma run_erase_ignored (angle stepSize : R) (s : string) (t : Turtle) :
  run angle stepSize t (erase_ignored s) = run angle stepSize t s.
Proof.
  revert t. induction s as [|c s IH]; intros t; [reflexivity|].
  simpl. destruct (acts c) eqn:E.
  - simpl. destruct (step angle stepSize t c); simpl; [apply IH|reflexivity].
  - rewrite (step_ignored _ _ _ _ E). simpl. apply IH.
Qed.

(** A symbol that is not a bracket leaves the branch stack alone. *)
Lemma step_keeps_stack (angle stepSize : R) (t : Turtle) (char : ascii) :
  (char =? "[")%char = false -> (char =? "]")%char = false ->
  exists t', step angle stepSize t char = Normal t' /\ stack t' = stack t.
Proof.
  intros Ho Hc. unfold step. rewrite Ho, Hc.
  repeat match goal with
         | |- context [if ?b then _ else _] => destruct b
         end; eauto.
Qed.

(** A well-nested string that closes [depth] branches pops exactly
    that many entries and leaves the rest of the stack as it was. *)
Lemma nested_stack (angle stepSize : R) (s : string) :
  forall (depth : nat) (t : Turtle),
    nested depth s = true ->
    (depth <= List.length (stack t))%nat ->
    exists t', run angle stepSize t s = Normal t'
               /\ stack t' = drop depth (stack t).
Proof.
  induction s as [|c s IH]; intros depth t Hn Hd; simpl in Hn.
  - apply Nat.eqb_eq in Hn. subst depth. exists t. split; reflexivity.
  - destruct (c =? "[")%char eqn:Ho.
    + apply Ascii.eqb_eq in Ho. subst c.
      destruct (IH (S depth)
                  {| x := x t; y := y t; z := z t;
                     currentAngle := currentAngle t;
                     stack := mkSaved (x t) (y t) (z t) (currentAngle t)
                                :: stack t;
                     commands := commands t |} Hn) as (t' & Hr & Hs).
      { simpl. lia. }
      exists t'. split; [exact Hr | exact Hs].
    + destruct (c =? "]")%char eqn:Hc.
      * apply Ascii.eqb_eq in Hc. subst c.
        destruct depth as [|depth']; [discriminate|].
        destruct t as [x0 y0 z0 a0 [|top rest] cmds]; simpl in Hd; [lia|].
        destruct (IH depth'
                    {| x := sx top; y := sy top; z := sz top;
                       currentAngle := sangle top;
                       stack := rest; commands := cmds |} Hn)
          as (t' & Hr & Hs).
        { simpl. lia. }
        exists t'. split; [exact Hr | exact Hs].
      * destruct (step_keeps_stack angle stepSize t c Ho Hc)
          as (t1 & Hstep & Hstack).
        destruct (IH depth t1 Hn) as (t' & Hr & Hs).
        { rewrite Hstack. exact Hd. }
        exists t'. simpl. rewrite Hstep. simpl.
        split; [exact Hr | rewrite Hs, Hstack; reflexivity].
Qed.

(** Branch restore in general: after [[w]], for any well-nested [w],
    the walker is back at the position and heading it had before the
    opening bracket, with the stack it had. *)
Lemma branch_restores_pose (angle stepSize : R) (w : string) (t : Turtle) :
  nested 0 w = true ->
  exists t', run angle stepSize t ("[" +:+ w +:+ "]") = Normal t'
             /\ x t' = x t /\ y t' = y t /\ z t' = z t
             /\ currentAngle t' = currentAngle t
             /\ stack t' = stack t.
Proof.
  intros Hn.
  set (opened := {| x := x t; y := y t; z := z t;
                    currentAngle := currentAngle t;
                    stack := mkSaved (x t) (y t) (z t) (currentAngle t)
                               :: stack t;
                    commands := commands t |}).
  destruct (nested_stack angle stepSize w 0 opened Hn) as (t1 & Hr & Hs).
  { simpl. lia. }
  change ("[" +:+ w +:+ "]") with (String "[" (w +:+ "]")).
  change (run angle stepSize t (String "[" (w +:+ "]")))
    with (run angle stepSize opened (w +:+ "]")).
  rewrite run_app, Hr. simpl in Hs |- *.
  unfold step. simpl. rewrite Hs. simpl.
  eexists. split; [reflexivity|]. simpl. repeat split; reflexivity.
Qed.

(** C6.  Interpreting "F[+F]F": the state after "F[+F]" has the
    position, the heading and the stack of the state after "F", so the
    closing bracket restores the pose saved at the opening one; the
    three segments are the first F from the origin straight up, the
    branch turned by [angle], and a third segment that starts where the
    first ended and continues straight up, on the line of the first. *)
Theorem branch_restore_example (angle stepSize : R) :
  let p0 := mkPoint 0 0 0 in
  let p1 := mkPoint 0 stepSize 0 in
  let p2 := mkPoint 0 (stepSize + stepSize) 0 in
  let q := mkPoint (sin angle * stepSize)
                   (stepSize + cos angle * stepSize) 0 in
  (exists before after,
      run angle stepSize initial "F" = Normal before
      /\ run angle stepSize initial "F[+F]" = Normal after
      /\ x after = x before /\ y after = y before /\ z after = z before
      /\ currentAngle after = currentAngle before
      /\ currentAngle before = 0
      /\ stack after = stack before)
  /\ parseLSystemString "F[+F]F" angle stepSize
     = Normal [Line p0 p1; Line p1 q; Line p1 p2].
Proof.
  cbv zeta. split.
  - eexists. eexists. unfold run, step. simpl.
    split; [reflexivity|]. split; [reflexivity|].
    simpl. repeat split; reflexivity.
  - unfold parseLSystemString, run, step. simpl.
    rewrite !Rplus_0_l, sin_0, cos_0, !Rmult_0_l, !Rmult_1_l, !Rplus_0_l.
    reflexivity.
Qed.

(** C9.  Interpretation is total and never throws, whatever the input
    string, the angle and the step size; a symbol other than
    F G + - | [ ] (the reserved pitch and roll symbols included) leaves
    the whole walker state, the emitted commands included, unchanged;
    a closing bracket on an empty stack does the same; so erasing the
    ignored symbols from the input does not change the output. *)
Theorem interpret_total_and_lenient (angle stepSize : R) :
  (forall lstring,
      exists cmds, parseLSystemString lstring angle stepSize = Normal cmds)
  /\ (forall t char,
         acts char = false -> step angle stepSize t char = Normal t)
  /\ (forall t, stack t = [] -> step angle stepSize t "]" = Normal t)
  /\ (forall lstring,
         parseLSystemString (erase_ignored lstring) angle stepSize
         = parseLSystemString lstring angle stepSize).
Proof.
  repeat split.
  - intros lstring. unfold parseLSystemString.
    destruct (run_normal angle stepSize lstring initial) as [t ->].
    simpl. eauto.
  - intros t char. apply step_ignored.
  - intros t. apply step_unmatched_close.
  - intros lstring. unfold parseLSystemString.
    rewrite run_erase_ignored. reflexivity.
Qed.

(** The statement at work: the unknown symbol X, the reserved symbol &
    and an unmatched closing bracket on the initial state. *)
Lemma interpret_total_and_lenient_witness :
  acts "X" = false
  /\ step 1 1 initial "X" = Normal initial
  /\ acts "&" = false
  /\ step 1 1 initial "&" = Normal initial
  /\ stack initial = []
  /\ step 1 1 initial "]" = Normal initial
  /\ exists cmds, parseLSystemString "F]X&" 1 1 = Normal cmds.
Proof.
  destruct (interpret_total_and_lenient 1 1) as (Htotal & Hignore & Hclose & _).
  split; [reflexivity|]. split; [apply Hignore; reflexivity|].
  split; [reflexivity|]. split; [apply Hignore; reflexivity|].
  split; [reflexivity|]. split; [apply Hclose; reflexivity|].
  apply Htotal.
Defined.

End LSysProofs.

(** * Properties of the building generator *)

Module BuildingProofs.

Import Js Building.
Local Open Scope R_scope.

(** *** The [forEach] loop *)

Lemma forEach_from_snoc {A St : Type} (f : St -> A -> nat -> St)
    (items : list A) (a : A) :
  forall (start : nat) (s : St),
    forEach_from f start (items ++ [a]) s
    = f (forEach_from f start items s) a (start + List.length items)%nat.
Proof.
  induction items as [|b items IH]; intros start s; simpl.
  - rewrite Nat.add_0_r. reflexivity.
  - rewrite IH. f_equal. lia.
Qed.

(** Loop invariants: [P k s] holds of the state [s] reached after the
    callback ran on the items of index below [k]. *)
Lemma forEach_invariant {A St : Type} (f : St -> A -> nat -> St)
    (items : list A) (s0 : St) (P : nat -> St -> Prop) :
  P 0%nat s0 ->
  (forall k a s, items !! k = Some a -> P k s -> P (S k) (f s a k)) ->
  P (List.length items) (forEach f items s0).
Proof.
  intros H0 Hstep.
  assert (Hk : forall k, (k <= List.length items)%nat ->
                         P k (forEach f (take k items) s0)).
  { induction k as [|k IH]; intros Hle.
    - rewrite take_0. exact H0.
    - destruct (lookup_lt_is_Some_2 items k) as [a Ha]; [lia|].
      rewrite (take_S_r _ _ _ Ha). unfold forEach.
      rewrite forEach_from_snoc. simpl.
      rewrite length_take, Nat.min_l by lia.
      apply Hstep; [exact Ha|]. apply IH. lia. }
  specialize (Hk (List.length items) (le_n _)).
  rewrite firstn_all in Hk. exact Hk.
Qed.

(** The rooms of a level, by index. *)
Lemma forEach_addRoom (g : BuildingGrammar) (levelIndex : nat)
    (positions items : list Position) :
  forall (start : nat) (rooms : list Room),
    forEach_from (addRoom g levelIndex positions) start items rooms
    = rooms ++ imap (fun j pos =>
                       makeRoom g levelIndex positions pos (start + j))
                    items.
Proof.
  induction items as [|pos items IH]; intros start rooms; simpl.
  - rewrite app_nil_r. reflexivity.
  - rewrite IH. unfold addRoom. rewrite <- app_assoc. simpl.
    rewrite Nat.add_0_r. do 2 f_equal.
    apply imap_ext. intros j p _. simpl. f_equal. lia.
Qed.

Lemma level_rooms_imap (g : BuildingGrammar) (levelIndex : nat) :
  level_rooms (generateLevel g levelIndex)
  = imap (fun i pos => makeRoom g levelIndex
                         (generateRoomPositions g levelIndex) pos i)
         (generateRoomPositions g levelIndex).
Proof.
  unfold generateLevel, forEach. simpl.
  rewrite forEach_addRoom. reflexivity.
Qed.

Lemma level_rooms_lookup (g : BuildingGrammar) (levelIndex i : nat) :
  level_rooms (generateLevel g levelIndex) !! i
  = (fun pos => makeRoom g levelIndex
                  (generateRoomPositions g levelIndex) pos i)
      <$> generateRoomPositions g levelIndex !! i.
Proof.
  unfold generateLevel, forEach. simpl.
  rewrite forEach_addRoom. simpl. apply list_lookup_imap.
Qed.

Lemma length_generateRoomPositions (g : BuildingGrammar) (levelIndex : nat) :
  List.length (generateRoomPositions g levelIndex) = roomsPerLevel g.
Proof.
  unfold generateRoomPositions.
  repeat match goal with
         | |- context [if ?b then _ else _] => destruct b
         end; rewrite length_map, length_seq; reflexivity.
Qed.

Lemma length_level_rooms (g : BuildingGrammar) (levelIndex : nat) :
  List.length (level_rooms (generateLevel g levelIndex)) = roomsPerLevel g.
Proof.
  unfold generateLevel, forEach. simpl.
  rewrite forEach_addRoom. simpl.
  rewrite length_imap. apply length_generateRoomPositions.
Qed.

(** *** Room identifiers *)

Lemma roomId_inj (levelIndex i j : nat) :
  roomId levelIndex i = roomId levelIndex j -> i = j.
Proof.
  unfold roomId. intros H.
  repeat apply String.app_inj in H.
  apply pretty_nat_inj in H. exact H.
Qed.

(** *** The counts of the grid layout and the real functions they stand for *)

(** [ceil_sqrt n] is the ceiling of the real square root of [n]. *)
Lemma ceil_sqrt_is_ceiling (n : nat) :
  (0 < n)%nat ->
  INR (ceil_sqrt n) - 1 < sqrt (INR n) <= INR (ceil_sqrt n).
Proof.
  intros Hn. unfold ceil_sqrt.
  destruct (Nat.sqrt_up_spec n Hn) as [Hlow Hhigh].
  assert (0 < Nat.sqrt_up n)%nat as Hc by (apply Nat.sqrt_up_pos; exact Hn).
  set (c := Nat.sqrt_up n) in *.
  assert (INR (Nat.pred c) = INR c - 1) as Hpred.
  { rewrite <- (Nat.succ_pred_pos c Hc) at 2. rewrite S_INR. lra. }
  split.
  - rewrite <- Hpred.
    rewrite <- (sqrt_square (INR (Nat.pred c))) by apply pos_INR.
    rewrite <- mult_INR. apply sqrt_lt_1.
    + apply pos_INR.
    + apply pos_INR.
    + apply lt_INR. exact Hlow.
  - rewrite <- (sqrt_square (INR c)) by apply pos_INR.
    rewrite <- mult_INR. apply sqrt_le_1.
    + apply pos_INR.
    + apply pos_INR.
    + apply le_INR. exact Hhigh.
Qed.

(** [ceil_div n c] is the ceiling of the real quotient [n / c]. *)
Lemma ceil_div_is_ceiling (n c : nat) :
  (0 < c)%nat ->
  INR (ceil_div n c) - 1 < INR n / INR c <= INR (ceil_div n c).
Proof.
  intros Hc. unfold ceil_div.
  set (q := ((n + (c - 1)) / c)%nat).
  assert (Hq : (q * c <= n + (c - 1) < (q + 1) * c)%nat).
  { unfold q. split.
    - rewrite Nat.mul_comm. apply Nat.Div0.mul_div_le.
    - pose proof (Nat.mul_succ_div_gt (n + (c - 1)) c) as H.
      rewrite Nat.mul_comm, Nat.add_1_r. apply H. lia. }
  destruct Hq as [Hlow Hhigh].
  assert (0 < INR c) as Hcr by (apply lt_0_INR; exact Hc).
  assert (n <= q * c)%nat as Hup by lia.
  assert (q * c < n + c)%nat as Hdown by lia.
  apply le_INR in Hup. apply lt_INR in Hdown.
  rewrite mult_INR in Hup. rewrite mult_INR, plus_INR in Hdown.
  split.
  - apply (Rmult_lt_reg_r (INR c)); [exact Hcr|].
    unfold Rdiv. rewrite Rmult_assoc, Rinv_l by lra. lra.
  - apply (Rmult_le_reg_r (INR c)); [exact Hcr|].
    unfold Rdiv. rewrite Rmult_assoc, Rinv_l by lra. lra.
Qed.

(** *** The connection list of one room *)

Lemma some_to_true (connections : list Connection) (target : string) :
  some_to connections target = true
  <-> exists c, c ∈ connections /\ conn_to c = target.
Proof.
  unfold some_to. rewrite existsb_exists. split.
  - intros (c & Hin & Heq). exists c.
    apply list_elem_of_In in Hin. apply String.eqb_eq in Heq. auto.
  - intros (c & Hin & Heq). exists c.
    apply list_elem_of_In in Hin. apply String.eqb_eq in Heq. auto.
Qed.

Lemma some_to_false (connections : list Connection) (target : string) :
  some_to connections target = false ->
  target ∉ conn_to <$> connections.
Proof.
  intros Hf Hin. apply list_elem_of_fmap in Hin as (c & Heq & Hc).
  assert (some_to connections target = true) as Ht.
  { apply some_to_true. exists c. auto. }
  congruence.
Qed.

Lemma connect_invariant (g : BuildingGrammar) (levelIndex : nat)
    (positions : list Position) (pos : Position) (index : nat) :
  connections_upto g levelIndex positions pos index
    (List.length positions)
    (forEach (connect g levelIndex pos index) positions []).
Proof.
  apply (forEach_invariant (connect g levelIndex pos index) positions []
           (connections_upto g levelIndex positions pos index)).
  - repeat split.
    + simpl. apply NoDup_nil_2.
    + intros c Hc. apply elem_of_nil in Hc. contradiction.
    + intros j otherPos Hj. lia.
  - intros k otherPos conns Hk (Hnd & Hsound & Hcomplete).
    assert (Hkeep : (forall j p, (j < S k)%nat -> j <> index ->
                        positions !! j = Some p ->
                        distance pos p < roomSize g * 1.2 -> j <> k) ->
                    connections_upto g levelIndex positions pos index
                      (S k) conns).
    { intros Hne. repeat split; [exact Hnd| |].
      - intros c Hc. destruct (Hsound c Hc) as (j & Hj & Hji & Hto).
        exists j. repeat split; [lia|exact Hji|exact Hto].
      - intros j p Hj Hji Hp Hd.
        apply (Hcomplete j p); [|exact Hji|exact Hp|exact Hd].
        specialize (Hne j p Hj Hji Hp Hd). lia. }
    unfold connect.
    destruct (Nat.eqb index k) eqn:Eik.
    { apply Nat.eqb_eq in Eik. apply Hkeep. intros; lia. }
    apply Nat.eqb_neq in Eik.
    destruct (Rlt_dec (distance pos otherPos) (roomSize g * 1.2))
      as [Hnear|Hfar].
    2:{ apply Hkeep. intros j p _ _ Hp Hd ->.
        rewrite Hk in Hp. injection Hp as <-. contradiction. }
    destruct (some_to conns (roomId levelIndex k)) eqn:Esome; simpl.
    + (* the target is already there *)
      repeat split; [exact Hnd| |].
      * intros c Hc. destruct (Hsound c Hc) as (j & Hj & Hji & Hto).
        exists j. repeat split; [lia|exact Hji|exact Hto].
      * intros j p Hj Hji Hp Hd.
        destruct (decide (j = k)) as [->|Hjk].
        -- apply some_to_true. exact Esome.
        -- apply (Hcomplete j p); [lia|exact Hji|exact Hp|exact Hd].
    + (* a new connection is pushed *)
      repeat split.
      * rewrite fmap_app. simpl. apply NoDup_app. split; [exact Hnd|].
        split; [|apply NoDup_singleton].
        intros t Ht Ht'. apply list_elem_of_singleton in Ht'. subst t.
        apply (some_to_false _ _ Esome). exact Ht.
      * intros c Hc. apply elem_of_app in Hc as [Hc|Hc].
        -- destruct (Hsound c Hc) as (j & Hj & Hji & Hto).
           exists j. repeat split; [lia|exact Hji|exact Hto].
        -- apply list_elem_of_singleton in Hc. subst c. simpl.
           exists k. repeat split; [lia|congruence].
      * intros j p Hj Hji Hp Hd.
        destruct (decide (j = k)) as [->|Hjk].
        -- eexists. split; [apply elem_of_app; right;
                            apply list_elem_of_singleton; reflexivity|].
           reflexivity.
        -- destruct (Hcomplete j p) as (c & Hc & Hto);
             [lia|exact Hji|exact Hp|exact Hd|].
           exists c. split; [apply elem_of_app; left; exact Hc|exact Hto].
Qed.

Lemma level_room_inv (g : BuildingGrammar) (levelIndex i : nat) (r : Room) :
  level_rooms (generateLevel g levelIndex) !! i = Some r ->
  exists pos,
    generateRoomPositions g levelIndex !! i = Some pos
    /\ r = makeRoom g levelIndex (generateRoomPositions g levelIndex) pos i.
Proof.
  rewrite level_rooms_lookup. intros H.
  destruct (generateRoomPositions g levelIndex !! i) as [pos|];
    simpl in H; [|discriminate].
  exists pos. split; [reflexivity|congruence].
Qed.

Lemma room_position_makeRoom (g : BuildingGrammar) (levelIndex : nat)
    (positions : list Position) (pos : Position) (index : nat) :
  room_position (makeRoom g levelIndex positions pos index) = pos.
Proof. destruct pos. reflexivity. Qed.

(** Two rooms of different index that are near enough are connected,
    and in both directions. *)
Lemma adjacent_rooms_connected (g : BuildingGrammar) (levelIndex : nat)
    (i j : nat) (a b : Room) :
  i <> j ->
  level_rooms (generateLevel g levelIndex) !! i = Some a ->
  level_rooms (generateLevel g levelIndex) !! j = Some b ->
  distance (room_position a) (room_position b) < roomSize g * 1.2 ->
  exists c, c ∈ room_connections a /\ conn_to c = room_id b.
Proof.
  intros Hij Ha Hb Hd.
  apply level_room_inv in Ha as (pa & Hpa & ->).
  apply level_room_inv in Hb as (pb & Hpb & ->).
  rewrite !room_position_makeRoom in Hd. simpl.
  destruct (connect_invariant g levelIndex
              (generateRoomPositions g levelIndex) pa i)
    as (_ & _ & Hcomplete).
  apply (Hcomplete j pb); auto.
  apply lookup_lt_Some in Hpb. exact Hpb.
Qed.

(** C5.  In every level that [generateLevel] builds, for every
    grammar (the grid layout with 4 rooms included): no room has a
    connection to its own id; no room lists the same target twice;
    two distinct rooms whose planar distance is below roomSize * 1.2
    are connected from at least one of the two; and the target of every
    connection is the id of a room of the same level. *)
Theorem level_connectivity (g : BuildingGrammar) (levelIndex : nat) :
  let rooms := level_rooms (generateLevel g levelIndex) in
  (forall r c, r ∈ rooms -> c ∈ room_connections r ->
               conn_to c <> room_id r)
  /\ (forall r, r ∈ rooms -> NoDup (conn_to <$> room_connections r))
  /\ (forall i j a b,
         i <> j -> rooms !! i = Some a -> rooms !! j = Some b ->
         distance (room_position a) (room_position b) < roomSize g * 1.2 ->
         (exists c, c ∈ room_connections a /\ conn_to c = room_id b)
         \/ (exists c, c ∈ room_connections b /\ conn_to c = room_id a))
  /\ (forall r c, r ∈ rooms -> c ∈ room_connections r ->
                  exists target, target ∈ rooms
                                 /\ room_id target = conn_to c
                                 /\ room_level target = room_level r).
Proof.
  cbv zeta. repeat split.
  - intros r c Hr Hc Heq.
    apply list_elem_of_lookup in Hr as (i & Hr).
    apply level_room_inv in Hr as (pos & Hpos & ->). simpl in Hc, Heq.
    destruct (connect_invariant g levelIndex
                (generateRoomPositions g levelIndex) pos i)
      as (_ & Hsound & _).
    destruct (Hsound c Hc) as (j & _ & Hji & Hto).
    rewrite Hto in Heq. apply roomId_inj in Heq. contradiction.
  - intros r Hr.
    apply list_elem_of_lookup in Hr as (i & Hr).
    apply level_room_inv in Hr as (pos & Hpos & ->). simpl.
    apply (connect_invariant g levelIndex
             (generateRoomPositions g levelIndex) pos i).
  - intros i j a b Hij Ha Hb Hd. left.
    apply (adjacent_rooms_connected g levelIndex i j a b); assumption.
  - intros r c Hr Hc.
    apply list_elem_of_lookup in Hr as (i & Hr).
    apply level_room_inv in Hr as (pos & Hpos & ->). simpl in Hc.
    destruct (connect_invariant g levelIndex
                (generateRoomPositions g levelIndex) pos i)
      as (_ & Hsound & _).
    destruct (Hsound c Hc) as (j & Hj & _ & Hto).
    destruct (lookup_lt_is_Some_2 (generateRoomPositions g levelIndex) j Hj)
      as [pj Hpj].
    exists (makeRoom g levelIndex (generateRoomPositions g levelIndex) pj j).
    split; [|split; [simpl; congruence|reflexivity]].
    apply list_elem_of_lookup. exists j.
    rewrite level_rooms_lookup, Hpj. reflexivity.
Qed.

(** *** [generate] *)

Lemma constructor_roomsPerLevel_pos (config : BuildingConfig) :
  (0 < roomsPerLevel (constructor config))%nat.
Proof.
  simpl. unfold or_count.
  destruct (config_roomsPerLevel config) as [n|]; [|lia].
  destruct (Nat.eqb n 0) eqn:E; [lia|].
  apply Nat.eqb_neq in E. lia.
Qed.

Lemma constructor_levels_pos (config : BuildingConfig) :
  (0 < levels (constructor config))%nat.
Proof.
  simpl. unfold or_count.
  destruct (config_levels config) as [n|]; [|lia].
  destruct (Nat.eqb n 0) eqn:E; [lia|].
  apply Nat.eqb_neq in E. lia.
Qed.

(** On a level that has a room, [generateStairs] returns the stair put
    on the first room. *)
Lemma generateStairs_placed (g : BuildingGrammar) (level : nat) :
  (0 < roomsPerLevel g)%nat ->
  exists st, generateStairs g level (generateLevel g level) = Normal st
             /\ placed_at g level st.
Proof.
  intros Hpos. unfold generateStairs, placed_at.
  destruct (lookup_lt_is_Some_2 (level_rooms (generateLevel g level)) 0)
    as [firstRoom Hfirst].
  { rewrite length_level_rooms. exact Hpos. }
  rewrite Hfirst. eexists. split; [reflexivity|].
  exists firstRoom. simpl. repeat split; reflexivity.
Qed.

(** On a level without rooms it throws: no stair object is built. *)
Lemma generateStairs_empty_level (g : BuildingGrammar) (level : nat)
    (levelData : Level) :
  level_rooms levelData = [] ->
  generateStairs g level levelData = ThrowTypeError.
Proof. intros H. unfold generateStairs. rewrite H. reflexivity. Qed.

(** The loop of [generate], from any turn on: it pushes the levels in
    order and, when stairs are enabled, one stair for each level but
    the last. *)
Lemma generate_loop_spec (g : BuildingGrammar) :
  (0 < roomsPerLevel g)%nat ->
  forall (count level : nat) (b : BuildingModel),
    (level + count = levels g)%nat ->
    exists stairs,
      generate_loop g count level b
      = Normal {| building_levels :=
                    building_levels b ++ (generateLevel g <$> seq level count);
                  building_stairs := building_stairs b ++ stairs |}
      /\ if hasStairs g
         then Forall2 (placed_at g) (seq level (count - 1)) stairs
         else stairs = [].
Proof.
  intros Hpos. induction count as [|count IH]; intros level b Hsum.
  - exists []. simpl. rewrite !app_nil_r. destruct b.
    split; [reflexivity|]. destruct (hasStairs g); constructor.
  - simpl generate_loop. unfold generate_body.
    destruct (hasStairs g) eqn:Hstairs; simpl andb.
    + destruct (level <? levels g - 1)%nat eqn:Hlt.
      * apply Nat.ltb_lt in Hlt.
        destruct (generateStairs_placed g level Hpos) as (st & -> & Hst).
        simpl bind.
        edestruct (IH (S level)) as (stairs & -> & Hall); [lia|].
        simpl.
        exists (st :: stairs). rewrite <- !app_assoc. simpl.
        split; [reflexivity|].
        destruct count as [|count']; [lia|].
        replace (S (S count') - 1)%nat with (S count') by lia.
        replace (S count' - 1)%nat with count' in Hall by lia.
        simpl. constructor; assumption.
      * apply Nat.ltb_ge in Hlt.
        assert (count = 0%nat) as -> by lia.
        exists []. simpl. rewrite !app_nil_r.
        split; [reflexivity|constructor].
    + cbv iota. simpl bind.
      edestruct (IH (S level)) as (stairs & -> & Hall); [lia|].
      subst stairs. simpl.
      exists []. rewrite <- !app_assoc. simpl.
      split; reflexivity.
Qed.

Lemma generate_spec (g : BuildingGrammar) :
  (0 < roomsPerLevel g)%nat ->
  exists stairs,
    generate g
    = Normal {| building_levels := generateLevel g <$> seq 0 (levels g);
                building_stairs := stairs |}
    /\ if hasStairs g
       then Forall2 (placed_at g) (seq 0 (levels g - 1)) stairs
       else stairs = [].
Proof.
  intros Hpos. unfold generate.
  destruct (generate_loop_spec g Hpos (levels g) 0
              {| building_levels := []; building_stairs := [] |})
    as (stairs & Hrun & Hall); [lia|].
  exists stairs. split; [exact Hrun|exact Hall].
Qed.

(** Whatever the configuration, [generate] returns a building. *)
Lemma generate_constructor_normal (config : BuildingConfig) :
  exists b, generate (constructor config) = Normal b.
Proof.
  destruct (generate_spec (constructor config)
              (constructor_roomsPerLevel_pos config)) as (stairs & -> & _).
  eauto.
Qed.

(** The levels of a generated building are the levels [generateLevel]
    builds, in order. *)
Lemma generated_levels (g : BuildingGrammar) (b : BuildingModel)
    (k : nat) (lv : Level) :
  (0 < roomsPerLevel g)%nat ->
  generate g = Normal b ->
  building_levels b !! k = Some lv ->
  (k < levels g)%nat /\ lv = generateLevel g k.
Proof.
  intros Hpos Hgen Hlv.
  destruct (generate_spec g Hpos) as (stairs & Hrun & _).
  rewrite Hrun in Hgen. injection Hgen as <-.
  cbn [building_levels] in Hlv. rewrite list_lookup_fmap in Hlv.
  destruct (seq 0 (levels g) !! k) as [l|] eqn:Hl; [|discriminate].
  apply lookup_seq in Hl as [-> Hk].
  split; [exact Hk|]. injection Hlv as <-. reflexivity.
Qed.

(** Every stair of a generated building stands on the first room of
    the level it leaves. *)
Lemma stairs_on_first_rooms (g : BuildingGrammar) (b : BuildingModel)
    (k : nat) (st : Stair) :
  (0 < roomsPerLevel g)%nat ->
  generate g = Normal b ->
  building_stairs b !! k = Some st ->
  (k < levels g - 1)%nat
  /\ exists lv firstRoom,
      building_levels b !! k = Some lv
      /\ level_index lv = k
      /\ level_rooms lv !! 0%nat = Some firstRoom
      /\ stair_x st = room_x firstRoom
      /\ stair_z st = room_z firstRoom
      /\ stair_y st = level_y lv
      /\ stair_level st = k.
Proof.
  intros Hpos Hgen Hst.
  destruct (generate_spec g Hpos) as (stairs & Hrun & Hall).
  rewrite Hrun in Hgen. injection Hgen as <-. simpl in Hst |- *.
  destruct (hasStairs g); [|subst stairs; discriminate].
  destruct (Forall2_lookup_r _ _ _ _ _ Hall Hst) as (l & Hl & Hplaced).
  apply lookup_seq in Hl as [-> Hk]. simpl in Hplaced.
  split; [exact Hk|].
  destruct Hplaced as (firstRoom & Hf & Hx & Hz & Hy & _ & _ & _ & Hlev).
  exists (generateLevel g k), firstRoom.
  repeat split; try assumption.
  rewrite list_lookup_fmap, lookup_seq_lt by lia. reflexivity.
Qed.

Lemma generate_stair_count (g : BuildingGrammar) (b : BuildingModel) :
  (0 < roomsPerLevel g)%nat ->
  generate g = Normal b ->
  List.length (building_levels b) = levels g
  /\ List.length (building_stairs b)
     = if hasStairs g then (levels g - 1)%nat else 0%nat.
Proof.
  intros Hpos Hgen.
  destruct (generate_spec g Hpos) as (stairs & Hrun & Hall).
  rewrite Hrun in Hgen. injection Hgen as <-. simpl.
  rewrite length_fmap, length_seq. split; [reflexivity|].
  destruct (hasStairs g); [|subst stairs; reflexivity].
  apply Forall2_length in Hall. rewrite length_seq in Hall. auto.
Qed.

Lemma strict_not_equal_false (v : JsValue) :
  strict_not_equal v (JsBool false) = true <-> v <> JsBool false.
Proof.
  unfold strict_not_equal. destruct v as [| |[|]| |]; simpl;
    split; intros H; congruence.
Qed.





(** C2, as the code has it.  A configuration whose roomsPerLevel is 0
    gets the constructor's default of 4 rooms per level: [generate]
    returns a building, each of its levels has exactly 4 rooms, and
    each stair stands on the first room of the level it leaves. *)
Theorem zero_roomsPerLevel_is_default (config : BuildingConfig) :
  config_roomsPerLevel config = Some 0%nat ->
  roomsPerLevel (constructor config) = 4%nat
  /\ exists b,
      generate (constructor config) = Normal b
      /\ (forall lv, lv ∈ building_levels b ->
                     List.length (level_rooms lv) = 4%nat)
      /\ (forall k st,
            building_stairs b !! k = Some st ->
            exists lv firstRoom,
              building_levels b !! k = Some lv
              /\ level_rooms lv !! 0%nat = Some firstRoom
              /\ stair_x st = room_x firstRoom
              /\ stair_z st = room_z firstRoom
              /\ stair_y st = level_y lv
              /\ stair_level st = k).
Proof.
  intros Hzero.
  assert (roomsPerLevel (constructor config) = 4%nat) as H4
      by (simpl; rewrite Hzero; reflexivity).
  split; [exact H4|].
  pose proof (constructor_roomsPerLevel_pos config) as Hpos.
  destruct (generate_spec _ Hpos) as (stairs & Hgen & Hall).
  eexists. split; [exact Hgen|]. split.
  - simpl. intros lv Hlv.
    apply list_elem_of_fmap in Hlv as (k & -> & _).
    rewrite length_level_rooms. exact H4.
  - intros k st Hst.
    destruct (stairs_on_first_rooms _ _ _ _ Hpos Hgen Hst)
      as (_ & lv & firstRoom & Hlv & _ & Hf & Hx & Hz & Hy & Hl).
    exists lv, firstRoom. repeat split; assumption.
Qed.

(** The statement at work on { roomsPerLevel: 0, hasStairs: true }. *)
Lemma zero_roomsPerLevel_is_default_witness :
  let config :=
    mkBuildingConfig None (Some 0%nat) None None None (JsBool true) None in
  roomsPerLevel (constructor config) = 4%nat
  /\ exists b, generate (constructor config) = Normal b.
Proof.
  cbv zeta.
  destruct (zero_roomsPerLevel_is_default
              (mkBuildingConfig None (Some 0%nat) None None None
                                (JsBool true) None) eq_refl)
    as (H4 & b & Hgen & _).
  split; [exact H4|]. exists b. exact Hgen.
Defined.

(** C2, as the claim states it, fails: with roomsPerLevel = 0 and
    stairs enabled, the building has levels, none of them has an empty
    room list, and every stair has a first room under it. *)
Lemma zero_roomsPerLevel_counterexample :
  let config :=
    mkBuildingConfig None (Some 0%nat) None None None (JsBool true) None in
  config_roomsPerLevel config = Some 0%nat
  /\ exists b,
      generate (constructor config) = Normal b
      /\ List.length (building_levels b) = 3%nat
      /\ List.length (building_stairs b) = 2%nat
      /\ (forall lv, lv ∈ building_levels b -> level_rooms lv <> [])
      /\ ~ (forall lv, lv ∈ building_levels b -> level_rooms lv = []).
Proof.
  cbv zeta. split; [reflexivity|].
  set (config := mkBuildingConfig None (Some 0%nat) None None None
                                  (JsBool true) None).
  pose proof (constructor_roomsPerLevel_pos config) as Hpos.
  destruct (generate_spec _ Hpos) as (stairs & Hgen & Hall).
  destruct (generate_stair_count _ _ Hpos Hgen) as [Hnl Hns].
  assert (Hne : forall lv,
             lv ∈ generateLevel (constructor config) <$> seq 0 3 ->
             level_rooms lv <> []).
  { intros lv Hlv Hnil.
    apply list_elem_of_fmap in Hlv as (k & -> & _).
    apply (f_equal (@List.length Room)) in Hnil.
    rewrite length_level_rooms in Hnil. discriminate. }
  eexists. split; [exact Hgen|].
  split; [exact Hnl|]. split; [exact Hns|]. split; [exact Hne|].
  intros Hall0.
  apply (Hne (generateLevel (constructor config) 0)).
  - simpl. apply list_elem_of_here.
  - apply Hall0. simpl. apply list_elem_of_here.
Qed.

(** *** The default building: a grid of 4 rooms *)

Ltac near_or_far :=
  match goal with
  | |- context [Rlt_dec (distance ?p ?q) ?t] =>
      let H := fresh "H" in
      destruct (Rlt_dec (distance p q) t) as [H|H];
      [ try (exfalso; revert H; apply RealFacts.sqrt_not_below; simpl; lra)
      | try (exfalso; apply H; apply RealFacts.sqrt_below; simpl; lra) ]
  end.

Ltac which_direction :=
  unfold getDirection; simpl;
  repeat match goal with
         | |- context [Rgt_dec ?a ?b] =>
             destruct (Rgt_dec a b);
             try (exfalso; unfold Rabs in *;
                  repeat destruct Rcase_abs; lra)
         end.

Ltac room_connections_at :=
  unfold makeRoom, forEach; simpl; unfold connect; simpl;
  repeat (near_or_far; simpl);
  which_direction; reflexivity.

(** With every key absent the level is a 2 x 2 grid of rooms 4.4
    apart. *)
Example default_positions :
  generateRoomPositions (constructor defaultConfig) 0
  = [mkPosition (-2.2) (-2.2); mkPosition 2.2 (-2.2);
     mkPosition (-2.2) 2.2; mkPosition 2.2 2.2].
Proof.
  unfold generateRoomPositions. simpl.
  repeat (f_equal; try lra).
Qed.

(** Each room of the default level is connected to the two rooms next
    to it and not to the one across the diagonal. *)
Example default_connections :
  room_connections <$> level_rooms (generateLevel (constructor defaultConfig) 0)
  = [ [mkConnection "level-0-room-1" east;
       mkConnection "level-0-room-2" south];
      [mkConnection "level-0-room-0" west;
       mkConnection "level-0-room-3" south];
      [mkConnection "level-0-room-0" north;
       mkConnection "level-0-room-3" east];
      [mkConnection "level-0-room-1" north;
       mkConnection "level-0-room-2" west] ].
Proof.
  rewrite level_rooms_imap.
  unfold generateRoomPositions. simpl.
  f_equal; [room_connections_at|].
  f_equal; [room_connections_at|].
  f_equal; [room_connections_at|].
  f_equal; room_connections_at.
Qed.

(** The statement at work on the first two rooms of the default level,
    4.4 apart with a threshold of 4.8. *)
Lemma level_connectivity_witness :
  let g := constructor defaultConfig in
  let rooms := level_rooms (generateLevel g 0) in
  exists a b,
    rooms !! 0%nat = Some a /\ rooms !! 1%nat = Some b
    /\ distance (room_position a) (room_position b) < roomSize g * 1.2
    /\ ((exists c, c ∈ room_connections a /\ conn_to c = room_id b)
        \/ (exists c, c ∈ room_connections b /\ conn_to c = room_id a))
    /\ NoDup (conn_to <$> room_connections a)
    /\ (forall c, c ∈ room_connections a -> conn_to c <> room_id a).
Proof.
  cbv zeta.
  destruct (level_connectivity (constructor defaultConfig) 0)
    as (Hself & Hnodup & Hadjacent & _).
  destruct (lookup_lt_is_Some_2
              (level_rooms (generateLevel (constructor defaultConfig) 0))
              0) as [a Ha].
  { rewrite length_level_rooms. simpl. lia. }
  destruct (lookup_lt_is_Some_2
              (level_rooms (generateLevel (constructor defaultConfig) 0))
              1) as [b Hb].
  { rewrite length_level_rooms. simpl. lia. }
  assert (Hnear : distance (room_position a) (room_position b)
                  < roomSize (constructor defaultConfig) * 1.2).
  { pose proof Ha as Ha'. pose proof Hb as Hb'.
    rewrite level_rooms_lookup, default_positions in Ha', Hb'.
    simpl in Ha', Hb'. injection Ha' as <-. injection Hb' as <-.
    rewrite !room_position_makeRoom.
    apply RealFacts.sqrt_below; simpl; lra. }
  exists a, b.
  split; [exact Ha|]. split; [exact Hb|]. split; [exact Hnear|].
  split; [apply (Hadjacent 0%nat 1%nat a b); auto|].
  split; [apply Hnodup; apply list_elem_of_lookup; eauto|].
  intros c Hc. apply (Hself a c); [|exact Hc].
  apply list_elem_of_lookup. eauto.
Defined.

End BuildingProofs.

(** * Properties of the flocking simulator *)

Module FlockingProofs.

Import Flocking.
Local Open Scope R_scope.

(** *** Vectors *)

Lemma vector_eq (a b : Vector3) :
  vx a = vx b -> vy a = vy b -> vz a = vz b -> a = b.
Proof. destruct a, b. simpl. intros -> -> ->. reflexivity. Qed.

Lemma length_zero : length zero = 0.
Proof.
  unfold length, zero. simpl.
  replace (0 * 0 + 0 * 0 + 0 * 0) with 0 by lra. apply sqrt_0.
Qed.

Lemma length_nonneg (a : Vector3) : 0 <= length a.
Proof. apply sqrt_pos. Qed.

Lemma multiplyScalar_zero (s : R) : multiplyScalar zero s = zero.
Proof. apply vector_eq; simpl; lra. Qed.

Lemma add_zero_r (a : Vector3) : add a zero = a.
Proof. apply vector_eq; simpl; lra. Qed.

Lemma multiplyScalar_one (a : Vector3) : multiplyScalar a 1.0 = a.
Proof. apply vector_eq; simpl; lra. Qed.

(** Scaling by a non-negative factor scales the length. *)
Lemma length_multiplyScalar (a : Vector3) (s : R) :
  0 <= s -> length (multiplyScalar a s) = s * length a.
Proof.
  intros Hs. unfold length, multiplyScalar. simpl.
  replace (vx a * s * (vx a * s) + vy a * s * (vy a * s)
           + vz a * s * (vz a * s))
    with (s * s * (vx a * vx a + vy a * vy a + vz a * vz a)) by ring.
  rewrite sqrt_mult; [|nra|nra].
  rewrite sqrt_square by exact Hs. reflexivity.
Qed.

(** A vector that is not null has length 1 once normalized. *)
Lemma length_normalize (a : Vector3) :
  0 < length a -> length (normalize a) = 1.
Proof.
  intros Hpos. unfold normalize, divideScalar, or_one.
  destruct (Req_dec_T (length a) 0) as [H0|_]; [lra|].
  rewrite length_multiplyScalar.
  - field. lra.
  - apply Rlt_le. apply Rdiv_lt_0_compat; lra.
Qed.

(** *** The integration step *)

(** [Boid.update] leaves the speed at most 5.0, the constant of the
    method. *)
Lemma Boid_update_speed (b : Boid) (deltaTime : R) :
  length (velocity (Boid_update b deltaTime)) <= 5.0.
Proof.
  unfold Boid_update. simpl.
  destruct (Rgt_dec _ 5.0) as [Hfast|Hslow].
  - rewrite length_multiplyScalar by lra.
    rewrite length_normalize by lra. lra.
  - lra.
Qed.

(** Below that constant the velocity is only integrated. *)
Lemma Boid_update_slow (b : Boid) (deltaTime : R) :
  length (add (velocity b) (multiplyScalar (acceleration b) deltaTime))
    <= 5.0 ->
  velocity (Boid_update b deltaTime)
  = add (velocity b) (multiplyScalar (acceleration b) deltaTime).
Proof.
  intros Hslow. unfold Boid_update. simpl.
  destruct (Rgt_dec _ 5.0) as [Hfast|_]; [lra|reflexivity].
Qed.

Lemma Boid_update_acceleration (b : Boid) (deltaTime : R) :
  acceleration (Boid_update b deltaTime) = zero.
Proof. unfold Boid_update. simpl. apply vector_eq; simpl; lra. Qed.

(** *** A system with a single boid *)

Section SingleAgent.

Variable s : FlockingSystem.
Variable b : Boid.
Hypothesis Hsingle : boids s = [b].

(** The neighbour loops meet the boid itself only, and skip it. *)
Lemma scan_single {St : Type} (f : St -> Boid -> St) (state : St) :
  scan f s 0 state = state.
Proof. unfold scan. rewrite Hsingle. reflexivity. Qed.

Lemma separate_single : separate s 0 b = zero.
Proof. unfold separate. rewrite scan_single. reflexivity. Qed.

Lemma align_single : align s 0 b = zero.
Proof. unfold align. rewrite scan_single. reflexivity. Qed.

Lemma cohesion_single : cohesion s 0 b = zero.
Proof. unfold cohesion. rewrite scan_single. reflexivity. Qed.

(** What [update] hands to [boid.update]: the acceleration the boid
    had, plus the boundary force. *)
Lemma steer_single :
  acceleration (steer_boid s 0 b)
  = add (acceleration b) (boundaries s b).
Proof.
  unfold steer_boid.
  rewrite separate_single, align_single, cohesion_single.
  rewrite !multiplyScalar_zero, multiplyScalar_one. simpl.
  rewrite !add_zero_r. reflexivity.
Qed.

Lemma update_single (deltaTime : R) :
  update s deltaTime
  = {| boids := [Boid_update (steer_boid s 0 b) deltaTime];
       config := config s |}.
Proof.
  unfold update. rewrite Hsingle. simpl.
  unfold update_boid. rewrite Hsingle. reflexivity.
Qed.

End SingleAgent.

(** Away from the bounds the boundary force is null. *)
Lemma boundaries_far (s : FlockingSystem) (b : Boid) :
  ~ near_bounds (config s) b -> boundaries s b = zero.
Proof.
  intros Hfar. unfold near_bounds in Hfar. cbv zeta in Hfar.
  assert (boundary_direction (config s) b = zero) as Hdir.
  { unfold boundary_direction.
    repeat match goal with
           | |- context [Rlt_dec ?x ?y] =>
               destruct (Rlt_dec x y); [exfalso; tauto|]
           | |- context [Rgt_dec ?x ?y] =>
               destruct (Rgt_dec x y); [exfalso; tauto|]
           end.
    reflexivity. }
  unfold boundaries. rewrite Hdir, length_zero.
  destruct (Rgt_dec 0 0) as [H|_]; [lra|reflexivity].
Qed.

Lemma boundaries_nonzero (s : FlockingSystem) (b : Boid) :
  boundaries s b <> zero -> near_bounds (config s) b.
Proof.
  intros Hnz. unfold near_bounds. cbv zeta.
  destruct (Rlt_dec (vx (position b))
              (vx (center (config s)) - width (bounds (config s)) / 2 + 5.0));
    [tauto|].
  destruct (Rgt_dec (vx (position b))
              (vx (center (config s)) + width (bounds (config s)) / 2 - 5.0));
    [tauto|].
  destruct (Rlt_dec (vz (position b))
              (vz (center (config s)) - depth (bounds (config s)) / 2 + 5.0));
    [tauto|].
  destruct (Rgt_dec (vz (position b))
              (vz (center (config s)) + depth (bounds (config s)) / 2 - 5.0));
    [tauto|].
  destruct (Rlt_dec (vy (position b)) (planeHeight (config s) - 5.0));
    [tauto|].
  destruct (Rgt_dec (vy (position b)) (planeHeight (config s) + 5.0));
    [tauto|].
  exfalso. apply Hnz. apply boundaries_far.
  unfold near_bounds. cbv zeta. tauto.
Qed.

(** A single boid stays single, and its acceleration is reset by each
    step. *)
Lemma updates_single (deltaTimes : list R) :
  forall (s : FlockingSystem) (b : Boid),
    boids s = [b] -> acceleration b = zero ->
    exists b',
      boids (updates s deltaTimes) = [b']
      /\ acceleration b' = zero
      /\ config (updates s deltaTimes) = config s.
Proof.
  induction deltaTimes as [|dt rest IH]; intros s b Hsingle Hacc.
  - exists b. auto.
  - unfold updates. simpl fold_left.
    rewrite (update_single s b Hsingle dt).
    destruct (IH {| boids := [Boid_update (steer_boid s 0 b) dt];
                    config := config s |}
                (Boid_update (steer_boid s 0 b) dt) eq_refl
                (Boid_update_acceleration _ _))
      as (b' & Hb' & Hacc' & Hcfg).
    unfold updates in Hb', Hcfg.
    exists b'. split; [exact Hb'|]. split; [exact Hacc'|exact Hcfg].
Qed.

(** C7.  In a system whose only agent is [b], created with a null
    acceleration, at every step (after any number of earlier steps)
    the separation, alignment and cohesion forces on the agent are the
    null vector, so the acceleration handed to the integration is the
    boundary force alone: the step [update(deltaTime)] leaves the
    system with the one boid that [Boid.update] makes of the agent's
    position and velocity with the boundary force for acceleration.
    That force is not null only when one of the six margin tests of
    [boundaries] holds. *)
Theorem single_agent_quiescence
    (s : FlockingSystem) (b : Boid) (deltaTimes : list R) (deltaTime : R) :
  boids s = [b] ->
  acceleration b = zero ->
  exists b',
    let s' := updates s deltaTimes in
    boids s' = [b']
    /\ separate s' 0 b' = zero
    /\ align s' 0 b' = zero
    /\ cohesion s' 0 b' = zero
    /\ acceleration (steer_boid s' 0 b') = boundaries s' b'
    /\ update s' deltaTime
       = {| boids :=
              [Boid_update {| position := position b';
                              velocity := velocity b';
                              acceleration := boundaries s' b' |}
                           deltaTime];
            config := config s' |}
    /\ (boundaries s' b' <> zero -> near_bounds (config s') b').
Proof.
  intros Hsingle Hacc.
  destruct (updates_single deltaTimes s b Hsingle Hacc)
    as (b' & Hb' & Hacc' & _).
  exists b'. cbv zeta.
  assert (Hsteer : acceleration (steer_boid (updates s deltaTimes) 0 b')
                   = boundaries (updates s deltaTimes) b').
  { rewrite (steer_single _ _ Hb'), Hacc'.
    apply vector_eq; simpl; lra. }
  split; [exact Hb'|].
  split; [apply separate_single; exact Hb'|].
  split; [apply align_single; exact Hb'|].
  split; [apply cohesion_single; exact Hb'|].
  split; [exact Hsteer|].
  split.
  - rewrite (update_single _ _ Hb' deltaTime). do 3 f_equal.
    rewrite <- Hsteer. reflexivity.
  - apply boundaries_nonzero.
Qed.

Lemma length_on_x (v : R) : length (mkVector3 v 0 0) = Rabs v.
Proof.
  unfold length. simpl.
  replace (v * v + 0 * 0 + 0 * 0) with (Rsqr v) by (unfold Rsqr; lra).
  apply sqrt_Rsqr_abs.
Qed.

(** One boid of the default system, 1 unit inside the eastern bound
    and flying east: the boundary force pushes it back west with the
    magnitude maxForce. *)
Lemma boundaries_at_eastern_edge :
  boundaries (addBoid (FlockingSystem_constructor emptyConfig)
                (Boid_constructor (mkVector3 24 50 0) (mkVector3 1 0 0)))
             (Boid_constructor (mkVector3 24 50 0) (mkVector3 1 0 0))
  = mkVector3 (-0.1) 0 0.
Proof.
  unfold boundaries.
  assert (Hdir : boundary_direction
                   (config (addBoid (FlockingSystem_constructor emptyConfig)
                              (Boid_constructor (mkVector3 24 50 0)
                                                (mkVector3 1 0 0))))
                   (Boid_constructor (mkVector3 24 50 0) (mkVector3 1 0 0))
                 = mkVector3 (-1) 0 0).
  { unfold boundary_direction. simpl.
    repeat match goal with
           | |- context [Rlt_dec ?x ?y] => destruct (Rlt_dec x y); try lra
           | |- context [Rgt_dec ?x ?y] => destruct (Rgt_dec x y); try lra
           end.
    reflexivity. }
  rewrite Hdir.
  assert (Hone : length (mkVector3 (-1) 0 0) = 1).
  { rewrite length_on_x. unfold Rabs. destruct (Rcase_abs (-1)); lra. }
  rewrite Hone. destruct (Rgt_dec 1 0) as [_|Hno]; [|lra].
  assert (Hnorm : normalize (mkVector3 (-1) 0 0) = mkVector3 (-1) 0 0).
  { unfold normalize, divideScalar, or_one. rewrite Hone.
    destruct (Req_dec_T 1 0); [lra|]. apply vector_eq; simpl; lra. }
  rewrite Hnorm.
  assert (Hdesired :
            sub (multiplyScalar (mkVector3 (-1) 0 0)
                   (maxSpeed (config (addBoid
                                        (FlockingSystem_constructor emptyConfig)
                                        (Boid_constructor (mkVector3 24 50 0)
                                                          (mkVector3 1 0 0))))))
                (velocity (Boid_constructor (mkVector3 24 50 0)
                                            (mkVector3 1 0 0)))
            = mkVector3 (-6) 0 0).
  { apply vector_eq; simpl; lra. }
  rewrite Hdesired.
  assert (Hsix : length (mkVector3 (-6) 0 0) = 6).
  { rewrite length_on_x. unfold Rabs. destruct (Rcase_abs (-6)); lra. }
  unfold clampLength, divideScalar, or_one. rewrite Hsix. simpl maxForce.
  destruct (Req_dec_T 6 0); [lra|].
  rewrite (Rmin_left 0.1 6) by lra. rewrite (Rmax_right 0 0.1) by lra.
  apply vector_eq; simpl; lra.
Qed.

(** The statement at work: one boid of the default system, 1 unit
    inside the eastern bound.  The boundary force on it is not null,
    and the step integrates that force and nothing else. *)
Lemma single_agent_quiescence_witness :
  let b := Boid_constructor (mkVector3 24 50 0) (mkVector3 1 0 0) in
  let s := addBoid (FlockingSystem_constructor emptyConfig) b in
  boids s = [b] /\ acceleration b = zero
  /\ separate s 0 b = zero /\ align s 0 b = zero /\ cohesion s 0 b = zero
  /\ boundaries s b = mkVector3 (-0.1) 0 0
  /\ near_bounds (config s) b
  /\ update s 1
     = {| boids := [Boid_update {| position := mkVector3 24 50 0;
                                   velocity := mkVector3 1 0 0;
                                   acceleration := mkVector3 (-0.1) 0 0 |}
                                1];
          config := config s |}.
Proof.
  cbv zeta. split; [reflexivity|]. split; [reflexivity|].
  destruct (single_agent_quiescence
              (addBoid (FlockingSystem_constructor emptyConfig)
                 (Boid_constructor (mkVector3 24 50 0) (mkVector3 1 0 0)))
              (Boid_constructor (mkVector3 24 50 0) (mkVector3 1 0 0))
              [] 1 eq_refl eq_refl)
    as (b' & Hb' & Hsep & Hali & Hcoh & _ & Hupd & Hnear).
  cbv zeta in Hnear. unfold updates in *. simpl fold_left in *.
  injection Hb' as <-.
  split; [exact Hsep|]. split; [exact Hali|]. split; [exact Hcoh|].
  split; [exact boundaries_at_eastern_edge|].
  split.
  - apply Hnear. rewrite boundaries_at_eastern_edge.
    intros H. injection H as H. lra.
  - rewrite Hupd, boundaries_at_eastern_edge. reflexivity.
Defined.

(** *** The speed after a step *)

(** After [update], whatever the configuration, every boid is at most
    as fast as the constant 5.0 of [Boid.update]. *)
Lemma update_boid_length (deltaTime : R) (s : FlockingSystem) (i : nat) :
  List.length (boids (update_boid deltaTime s i)) = List.length (boids s).
Proof.
  unfold update_boid. destruct (boids s !! i); simpl; [|reflexivity].
  apply length_insert.
Qed.

Lemma update_loop_speed (deltaTime : R) (count : nat) :
  forall (start : nat) (s : FlockingSystem),
    (start + count = List.length (boids s))%nat ->
    (forall i b, (i < start)%nat -> boids s !! i = Some b ->
                 length (velocity b) <= 5.0) ->
    forall i b,
      boids (fold_left (update_boid deltaTime) (seq start count) s) !! i
        = Some b ->
      length (velocity b) <= 5.0.
Proof.
  induction count as [|count IH]; intros start s Hlen Hdone i b Hb.
  - simpl in Hb. apply (Hdone i b); [|exact Hb].
    apply lookup_lt_Some in Hb. lia.
  - simpl in Hb.
    apply (IH (S start) (update_boid deltaTime s start)) with (i := i);
      [rewrite update_boid_length; lia| |exact Hb].
    intros j c Hj Hc. unfold update_boid in Hc.
    destruct (boids s !! start) as [boid|] eqn:Hstart.
    + simpl in Hc. destruct (decide (j = start)) as [->|Hne].
      * rewrite list_lookup_insert_eq in Hc
          by (apply lookup_lt_Some in Hstart; exact Hstart).
        injection Hc as <-. apply Boid_update_speed.
      * rewrite list_lookup_insert_ne in Hc by congruence.
        apply (Hdone j c); [lia|exact Hc].
    + apply lookup_ge_None in Hstart. lia.
Qed.

Lemma update_speed (s : FlockingSystem) (deltaTime : R) (b : Boid) :
  b ∈ boids (update s deltaTime) -> length (velocity b) <= 5.0.
Proof.
  intros Hb. apply list_elem_of_lookup in Hb as (i & Hb).
  unfold update in Hb.
  apply (update_loop_speed deltaTime (List.length (boids s)) 0 s)
    with (i := i); [lia| |exact Hb].
  intros j c Hj. lia.
Qed.

(** So the claimed bound holds when the configured maxSpeed is at
    least 5.0, the default included. *)
Lemma update_speed_configured (s : FlockingSystem) (deltaTime : R)
    (b : Boid) :
  5.0 <= maxSpeed (config s) ->
  b ∈ boids (update s deltaTime) ->
  length (velocity b) <= maxSpeed (config s).
Proof.
  intros Hmax Hb. pose proof (update_speed s deltaTime b Hb). lra.
Qed.

Lemma length_along_x (v : R) : 0 <= v -> length (mkVector3 v 0 0) = v.
Proof.
  intros Hv. unfold length. simpl.
  replace (v * v + 0 * 0 + 0 * 0) with (v * v) by lra.
  apply sqrt_square. exact Hv.
Qed.

(** C1 fails on the code.  A system created with the default
    configuration holds one boid at the centre of the volume, moving
    at speed 3; the configuration is then updated to maxSpeed = 1.
    After [update(1)] the boid still moves at speed 3, above the
    configured maxSpeed: [Boid.update] compares the speed with its own
    constant 5.0 and never reads the configuration. *)
Theorem configured_maxSpeed_exceeded :
  let b := Boid_constructor (mkVector3 0 50 0) (mkVector3 3 0 0) in
  let s := updateConfig
             (addBoid (FlockingSystem_constructor emptyConfig) b)
             (maxSpeedConfig 1) in
  maxSpeed (config (update s 1)) = 1
  /\ exists b',
      boids (update s 1) = [b']
      /\ velocity b' = mkVector3 3 0 0
      /\ length (velocity b') = 3
      /\ ~ length (velocity b') <= maxSpeed (config (update s 1)).
Proof.
  cbv zeta.
  set (b := Boid_constructor (mkVector3 0 50 0) (mkVector3 3 0 0)).
  set (s := updateConfig
              (addBoid (FlockingSystem_constructor emptyConfig) b)
              (maxSpeedConfig 1)).
  assert (Hsingle : boids s = [b]) by reflexivity.
  rewrite (update_single s b Hsingle 1). simpl config.
  split; [reflexivity|].
  assert (Hacc : acceleration (steer_boid s 0 b) = zero).
  { rewrite (steer_single s b Hsingle).
    rewrite boundaries_far.
    - apply vector_eq; simpl; lra.
    - unfold near_bounds. simpl. lra. }
  assert (Hv : add (velocity (steer_boid s 0 b))
                 (multiplyScalar (acceleration (steer_boid s 0 b)) 1)
               = mkVector3 3 0 0).
  { rewrite Hacc. apply vector_eq; simpl; lra. }
  assert (Hvel : velocity (Boid_update (steer_boid s 0 b) 1)
                 = mkVector3 3 0 0).
  { rewrite Boid_update_slow; [exact Hv|].
    rewrite Hv, length_along_x; lra. }
  eexists. split; [reflexivity|].
  rewrite Hvel, length_along_x by lra.
  split; [reflexivity|]. split; [reflexivity|].
  intros H. simpl in H. lra.
Qed.

End FlockingProofs.

(** * More on the rewriting engine and the walker *)

Module LSysMore.

Import Js LSys LSysProofs.
Local Open Scope R_scope.

(** *** Rewriting *)

Lemma pass_app (rs : gmap string string) (s1 s2 : string) :
  pass rs (s1 +:+ s2) = pass rs s1 +:+ pass rs s2.
Proof.
  induction s1 as [|c s1 IH]; [reflexivity|].
  rewrite append_cons, !pass_cons, IH, append_assoc. reflexivity.
Qed.

Lemma passes_app (rs : gmap string string) (n : nat) :
  forall s1 s2,
    passes rs n (s1 +:+ s2) = passes rs n s1 +:+ passes rs n s2.
Proof.
  induction n as [|n IH]; intros s1 s2; simpl; [reflexivity|].
  rewrite pass_app. apply IH.
Qed.

(** X1.  Expansion is a morphism of strings: the expansion of an axiom made
    of two parts is the expansion of the first part followed by the
    expansion of the second, for the same rules and iteration count. *)
Theorem iterate_concatenation (rs : gmap string string) (n : nat)
    (a1 a2 : string) :
  fst (iterate (constructor (a1 +:+ a2) rs (Some n)))
  = fst (iterate (constructor a1 rs (Some n)))
    +:+ fst (iterate (constructor a2 rs (Some n))).
Proof. unfold iterate. simpl. apply passes_app. Qed.

Lemma passes_add (rs : gmap string string) (n m : nat) :
  forall s, passes rs (n + m) s = passes rs m (passes rs n s).
Proof.
  induction n as [|n IH]; intros s; simpl; [reflexivity|]. apply IH.
Qed.

(** X2.  Iteration counts add up: [n + m] iterations give what [m]
    iterations give on an engine whose axiom is the result of [n]
    iterations. *)
Theorem iterate_resume (rs : gmap string string) (n m : nat) (a : string) :
  fst (iterate (constructor a rs (Some (n + m)%nat)))
  = fst (iterate
           (constructor (fst (iterate (constructor a rs (Some n))))
                        rs (Some m))).
Proof. unfold iterate. simpl. apply passes_add. Qed.

Lemma length_append (s1 s2 : string) :
  String.length (s1 +:+ s2) = (String.length s1 + String.length s2)%nat.
Proof.
  induction s1 as [|c s1 IH]; [reflexivity|].
  rewrite append_cons. simpl. rewrite IH. reflexivity.
Qed.

Lemma length_replacement (rs : gmap string string) (c : ascii) :
  (1 <= String.length (replacement rs c))%nat.
Proof.
  unfold replacement. destruct (rs !! String c EmptyString) as [r|].
  - destruct r as [|c' r']; simpl; lia.
  - simpl. lia.
Qed.

Lemma length_pass (rs : gmap string string) (s : string) :
  (String.length s <= String.length (pass rs s))%nat.
Proof.
  induction s as [|c s IH]; [simpl; lia|].
  rewrite pass_cons, length_append.
  pose proof (length_replacement rs c). simpl. lia.
Qed.

Lemma length_passes (rs : gmap string string) (n : nat) :
  forall s, (String.length s <= String.length (passes rs n s))%nat.
Proof.
  induction n as [|n IH]; intros s; simpl; [lia|].
  pose proof (length_pass rs s). pose proof (IH (pass rs s)). lia.
Qed.

(** X3.  Expansion never shortens: whatever the rules, the result of
    [iterate] is at least as long as the axiom.  A rule cannot erase a
    symbol, because a rule with an empty replacement is not applied. *)
Theorem iterate_never_shrinks (l : LSystem) :
  (String.length (axiom_ l) <= String.length (fst (iterate l)))%nat.
Proof. unfold iterate. simpl. apply length_passes. Qed.

Lemma pass_unruled (rs : gmap string string) (s : string) :
  unruled rs s -> pass rs s = s.
Proof.
  induction s as [|c s IH]; intros H; [reflexivity|].
  destruct H as [Hc Hs]. rewrite pass_cons, (IH Hs).
  unfold replacement. destruct Hc as [-> | ->]; reflexivity.
Qed.

(** X4.  Symbols without an applicable rule are constants: when no symbol of
    the axiom has a rule (the key is absent, or its replacement is the
    empty string), [iterate] returns the axiom, whatever the iteration
    count.  Keys longer than one symbol never apply. *)
Theorem iterate_unruled (a : string) (rs : gmap string string)
    (n : option nat) :
  unruled rs a -> fst (iterate (constructor a rs n)) = a.
Proof.
  intros H. unfold iterate. simpl.
  generalize (match n with Some n0 => n0 | None => 3%nat end).
  intros k. induction k as [|k IH]; simpl; [reflexivity|].
  rewrite (pass_unruled rs a H). exact IH.
Qed.

(** The statement at work: a rule with an empty replacement, a key of
    two symbols, and an axiom that spells that key. *)
Lemma iterate_unruled_witness :
  fst (iterate (constructor "FAB" {[ "F" := ""; "AB" := "X" ]} None))
  = "FAB".
Proof.
  apply iterate_unruled. simpl.
  repeat split; vm_compute; auto.
Defined.

(** *** The walker *)

(** What one symbol emits. *)
Lemma step_commands (angle stepSize : R) (t t' : Turtle) (c : ascii) :
  step angle stepSize t c = Normal t' ->
  commands t'
  = commands t ++
    (if draws c
     then [Line (position_of t)
                (mkPoint (x t + sin (currentAngle t) * stepSize)
                         (y t + cos (currentAngle t) * stepSize)
                         (z t))]
     else []).
Proof.
  unfold step.
  change ((c =? "F")%char || (c =? "G")%char) with (draws c).
  destruct t as [x0 y0 z0 a0 st cmds]; simpl.
  destruct (draws c).
  - intros H. injection H as <-. reflexivity.
  - destruct st as [|top rest]; simpl;
      repeat match goal with
             | |- context [if ?b then _ else _] => destruct b
             end;
      intros H; injection H as <-; simpl; rewrite app_nil_r; reflexivity.
Qed.

(** An invariant of the loop body is an invariant of the walk. *)
Lemma run_invariant (angle stepSize : R) (Inv : Turtle -> Prop) :
  (forall t c t', Inv t -> step angle stepSize t c = Normal t' -> Inv t') ->
  forall lstring t t',
    Inv t -> run angle stepSize t lstring = Normal t' -> Inv t'.
Proof.
  intros Hstep. induction lstring as [|c rest IH]; intros t t' Hinv Hrun.
  - simpl in Hrun. injection Hrun as <-. exact Hinv.
  - simpl in Hrun.
    destruct (step angle stepSize t c) as [t1|] eqn:Hs; [|discriminate].
    simpl in Hrun. apply (IH t1 t'); [|exact Hrun].
    apply (Hstep t c t1 Hinv Hs).
Qed.

Lemma run_count (angle stepSize : R) (lstring : string) :
  forall t t',
    run angle stepSize t lstring = Normal t' ->
    List.length (commands t')
    = (List.length (commands t) + count_draws lstring)%nat.
Proof.
  induction lstring as [|c rest IH]; intros t t' Hrun; simpl in Hrun.
  - injection Hrun as <-. simpl. lia.
  - destruct (step angle stepSize t c) as [t1|] eqn:Hs; [|discriminate].
    simpl in Hrun. rewrite (IH t1 t' Hrun).
    rewrite (step_commands _ _ _ _ _ Hs), length_app. simpl.
    destruct (draws c); simpl; lia.
Qed.

(** X5.  The walker emits one segment for each F and each G of the string,
    no more and no fewer, brackets and turns notwithstanding. *)
Theorem one_segment_per_draw (lstring : string) (angle stepSize : R) :
  exists cmds,
    parseLSystemString lstring angle stepSize = Normal cmds
    /\ List.length cmds = count_draws lstring.
Proof.
  unfold parseLSystemString.
  destruct (run_normal angle stepSize lstring initial) as [t Ht].
  rewrite Ht. simpl. exists (commands t). split; [reflexivity|].
  rewrite (run_count _ _ _ _ _ Ht). reflexivity.
Qed.

(** Where one symbol leaves the walker: moved forward, in place with the
    same stack, in place with its position pushed, or back at the
    position popped. *)
Lemma step_position (angle stepSize : R) (t t' : Turtle) (c : ascii) :
  step angle stepSize t c = Normal t' ->
  (draws c = true
   /\ position_of t' = mkPoint (x t + sin (currentAngle t) * stepSize)
                               (y t + cos (currentAngle t) * stepSize)
                               (z t)
   /\ stack t' = stack t)
  \/ (draws c = false
      /\ position_of t' = position_of t /\ stack t' = stack t)
  \/ (draws c = false
      /\ position_of t' = position_of t
      /\ exists sv, saved_position sv = position_of t
                    /\ stack t' = sv :: stack t)
  \/ (draws c = false
      /\ exists top, stack t = top :: stack t'
                     /\ position_of t' = saved_position top).
Proof.
  unfold step.
  change ((c =? "F")%char || (c =? "G")%char) with (draws c).
  destruct t as [x0 y0 z0 a0 st cmds]; simpl.
  destruct (draws c).
  - intros H. injection H as <-. left. auto.
  - destruct st as [|top rest]; simpl;
      repeat match goal with
             | |- context [if ?b then _ else _] => destruct b
             end;
      intros H; injection H as <-; simpl;
      first [ right; left; split; [reflexivity|]; split; reflexivity
            | right; right; left; split; [reflexivity|];
              split; [reflexivity|]; eexists; split; [|reflexivity];
              reflexivity
            | right; right; right; split; [reflexivity|];
              eexists; split; reflexivity ].
Qed.

Lemma flat_step (angle stepSize : R) (t t' : Turtle) (c : ascii) :
  (pz (position_of t) = 0
   /\ Forall (fun sv => pz (saved_position sv) = 0) (stack t)
   /\ Forall (flat_segment stepSize) (commands t)) ->
  step angle stepSize t c = Normal t' ->
  pz (position_of t') = 0
  /\ Forall (fun sv => pz (saved_position sv) = 0) (stack t')
  /\ Forall (flat_segment stepSize) (commands t').
Proof.
  intros (Hz & Hst & Hcmds) Hs.
  pose proof (step_commands _ _ _ _ _ Hs) as Hc.
  assert (Hcmds' : Forall (flat_segment stepSize) (commands t')).
  { rewrite Hc. apply Forall_app. split; [exact Hcmds|].
    destruct (draws c); [|constructor].
    constructor; [|constructor]. simpl in Hz |- *.
    split; [exact Hz|]. split; [exact Hz|].
    replace (x t + sin (currentAngle t) * stepSize - x t)
      with (sin (currentAngle t) * stepSize) by ring.
    replace (y t + cos (currentAngle t) * stepSize - y t)
      with (cos (currentAngle t) * stepSize) by ring.
    pose proof (sin2_cos2 (currentAngle t)) as H1. unfold Rsqr in H1.
    replace (sin (currentAngle t) * stepSize * (sin (currentAngle t) * stepSize)
             + cos (currentAngle t) * stepSize * (cos (currentAngle t) * stepSize))
      with ((sin (currentAngle t) * sin (currentAngle t)
             + cos (currentAngle t) * cos (currentAngle t))
            * (stepSize * stepSize)) by ring.
    rewrite H1. ring. }
  destruct (step_position _ _ _ _ _ Hs)
    as [(_ & Hp & Hk) | [(_ & Hp & Hk) | [(_ & Hp & sv & Hsv & Hk)
                                         | (_ & top & Hk & Hp)]]].
  - rewrite Hp, Hk. simpl. auto.
  - rewrite Hp, Hk. auto.
  - rewrite Hp, Hk. split; [exact Hz|]. split; [|exact Hcmds'].
    constructor; [rewrite Hsv; exact Hz|exact Hst].
  - rewrite Hk in Hst. inversion Hst as [|? ? Htop Hrest]; subst.
    rewrite Hp. auto.
Qed.

(** X6.  Every segment the walker emits lies in the plane z = 0 and has the
    length of the step: the square of its length is the square of
    [stepSize], whatever the heading. *)
Theorem segments_flat_and_of_step_length
    (lstring : string) (angle stepSize : R) :
  exists cmds,
    parseLSystemString lstring angle stepSize = Normal cmds
    /\ Forall (flat_segment stepSize) cmds.
Proof.
  unfold parseLSystemString.
  destruct (run_normal angle stepSize lstring initial) as [t Ht].
  rewrite Ht. simpl. exists (commands t). split; [reflexivity|].
  apply (run_invariant angle stepSize
           (fun t => pz (position_of t) = 0
                     /\ Forall (fun sv => pz (saved_position sv) = 0) (stack t)
                     /\ Forall (flat_segment stepSize) (commands t))
           (fun t c t' => flat_step angle stepSize t t' c)
           lstring initial t); [|exact Ht].
  simpl. repeat split; constructor.
Qed.

Lemma reachable_app (cmds more : list TurtleCommand) (p : Point) :
  reachable cmds p -> reachable (cmds ++ more) p.
Proof.
  intros [H|[a H]]; [left; exact H|].
  right. exists a. apply in_or_app. left. exact H.
Qed.

Lemma rooted_snoc (cmds : list TurtleCommand) (a b : Point) :
  rooted cmds -> reachable cmds a -> rooted (cmds ++ [Line a b]).
Proof.
  intros Hroot Ha k a' b' Hk.
  destruct (Nat.lt_ge_cases k (List.length cmds)) as [Hlt|Hge].
  - rewrite nth_error_app1 in Hk by exact Hlt.
    rewrite firstn_app.
    replace (k - List.length cmds)%nat with 0%nat by lia.
    simpl. rewrite app_nil_r. apply (Hroot k a' b' Hk).
  - rewrite nth_error_app2 in Hk by exact Hge.
    destruct (k - List.length cmds)%nat as [|m] eqn:Hm.
    + simpl in Hk. injection Hk as <- <-.
      assert (k = List.length cmds) as -> by lia.
      rewrite firstn_app, firstn_all, Nat.sub_diag. simpl.
      rewrite app_nil_r. exact Ha.
    + simpl in Hk. destruct m; discriminate.
Qed.

Lemma rooted_step (angle stepSize : R) (t t' : Turtle) (c : ascii) :
  (reachable (commands t) (position_of t)
   /\ Forall (fun sv => reachable (commands t) (saved_position sv)) (stack t)
   /\ rooted (commands t)) ->
  step angle stepSize t c = Normal t' ->
  reachable (commands t') (position_of t')
  /\ Forall (fun sv => reachable (commands t') (saved_position sv)) (stack t')
  /\ rooted (commands t').
Proof.
  intros (Hp & Hst & Hroot) Hs.
  pose proof (step_commands _ _ _ _ _ Hs) as Hc.
  assert (Hst' : Forall (fun sv => reachable (commands t') (saved_position sv))
                        (stack t)).
  { rewrite Hc. eapply Forall_impl; [exact Hst|].
    intros sv Hsv. apply reachable_app. exact Hsv. }
  assert (Hp' : reachable (commands t') (position_of t)).
  { rewrite Hc. apply reachable_app. exact Hp. }
  destruct (step_position _ _ _ _ _ Hs)
    as [(Hd & Hpos & Hk) | [(Hd & Hpos & Hk) | [(Hd & Hpos & sv & Hsv & Hk)
                                               | (Hd & top & Hk & Hpos)]]];
    rewrite Hd in Hc.
  - split; [|split].
    + rewrite Hpos, Hc. right. exists (position_of t).
      apply in_or_app. right. left. reflexivity.
    + rewrite Hk. exact Hst'.
    + rewrite Hc. apply rooted_snoc; assumption.
  - rewrite app_nil_r in Hc. rewrite Hpos, Hk. rewrite Hc in *. auto.
  - rewrite app_nil_r in Hc. rewrite Hpos, Hk. rewrite Hc in *.
    split; [exact Hp|]. split; [|exact Hroot].
    constructor; [rewrite Hsv; exact Hp|exact Hst].
  - rewrite app_nil_r in Hc. rewrite Hc in *. rewrite Hk in Hst.
    inversion Hst as [|? ? Htop Hrest]; subst.
    rewrite Hpos. auto.
Qed.

(** X7.  The skeleton is connected: every segment starts at the origin or
    at the end of a segment emitted before it, whatever the brackets of
    the string (unmatched ones included). *)
Theorem skeleton_rooted (lstring : string) (angle stepSize : R) :
  exists cmds,
    parseLSystemString lstring angle stepSize = Normal cmds
    /\ rooted cmds.
Proof.
  unfold parseLSystemString.
  destruct (run_normal angle stepSize lstring initial) as [t Ht].
  rewrite Ht. simpl. exists (commands t). split; [reflexivity|].
  apply (run_invariant angle stepSize
           (fun t => reachable (commands t) (position_of t)
                     /\ Forall (fun sv => reachable (commands t)
                                            (saved_position sv)) (stack t)
                     /\ rooted (commands t))
           (fun t c t' => rooted_step angle stepSize t t' c)
           lstring initial t); [|exact Ht].
  simpl. split; [left; reflexivity|]. split; [constructor|].
  intros k a b Hk. destruct k; discriminate.
Qed.

(** X8.  Branch restore for every branch: after an opening bracket, any
    well-nested string and the closing bracket, the walker is back at
    the position and the heading it had before the opening bracket, with
    the stack it had; what the branch drew stays in the output. *)
Theorem branch_restore_general (angle stepSize : R) (w : string)
    (t : Turtle) :
  nested 0 w = true ->
  exists t', run angle stepSize t ("[" +:+ w +:+ "]") = Normal t'
             /\ x t' = x t /\ y t' = y t /\ z t' = z t
             /\ currentAngle t' = currentAngle t
             /\ stack t' = stack t.
Proof. exact (branch_restores_pose angle stepSize w t). Qed.

(** The statement at work: the branch body "+F[-F]G" between brackets,
    from the initial state. *)
Lemma branch_restore_general_witness :
  nested 0 "+F[-F]G" = true
  /\ exists t',
      run 1 1 initial "[+F[-F]G]" = Normal t'
      /\ x t' = 0 /\ y t' = 0 /\ z t' = 0 /\ currentAngle t' = 0
      /\ stack t' = [].
Proof.
  split; [reflexivity|].
  apply (branch_restore_general 1 1 "+F[-F]G" initial). reflexivity.
Defined.

End LSysMore.

(** * More on the building generator *)

Module BuildingMore.

Import Js Building BuildingMesh BuildingProofs.
Local Open Scope R_scope.

(** *** Connections, exactly *)

(** The connection list of the room at [pos], of index [index]: one
    connection for each other position that is near enough, to the id of
    that index and in the direction [getDirection] gives, and nothing
    else.  The test for an existing target never finds one. *)
Lemma connections_exact (g : BuildingGrammar) (levelIndex : nat)
    (positions : list Position) (pos : Position) (index : nat)
    (c : Connection) :
  c ∈ forEach (connect g levelIndex pos index) positions []
  <-> exists j otherPos,
        j <> index
        /\ positions !! j = Some otherPos
        /\ distance pos otherPos < roomSize g * 1.2
        /\ c = {| conn_to := roomId levelIndex j;
                  conn_direction := getDirection pos otherPos |}.
Proof.
  revert c.
  assert (H : forall c,
             c ∈ forEach (connect g levelIndex pos index) positions []
             <-> exists j otherPos,
                   (j < List.length positions)%nat
                   /\ j <> index
                   /\ positions !! j = Some otherPos
                   /\ distance pos otherPos < roomSize g * 1.2
                   /\ c = {| conn_to := roomId levelIndex j;
                             conn_direction := getDirection pos otherPos |}).
  { apply (forEach_invariant (connect g levelIndex pos index) positions []
             (fun k conns =>
                forall c,
                  c ∈ conns
                  <-> exists j otherPos,
                        (j < k)%nat
                        /\ j <> index
                        /\ positions !! j = Some otherPos
                        /\ distance pos otherPos < roomSize g * 1.2
                        /\ c = {| conn_to := roomId levelIndex j;
                                  conn_direction :=
                                    getDirection pos otherPos |})).
    - intros c. split.
      + intros Hc. apply elem_of_nil in Hc. contradiction.
      + intros (j & p & Hj & _). lia.
    - intros k otherPos conns Hk IH.
      assert (Hskip :
                ~ (k <> index /\ distance pos otherPos < roomSize g * 1.2) ->
                forall c,
                  c ∈ conns
                  <-> exists j p,
                        (j < S k)%nat /\ j <> index
                        /\ positions !! j = Some p
                        /\ distance pos p < roomSize g * 1.2
                        /\ c = {| conn_to := roomId levelIndex j;
                                  conn_direction := getDirection pos p |}).
      { intros Hno c. rewrite (IH c). split.
        - intros (j & p & Hj & Hrest). exists j, p. split; [lia|exact Hrest].
        - intros (j & p & Hj & Hji & Hp & Hd & Hc).
          exists j, p. split; [|auto].
          destruct (decide (j = k)) as [->|Hne]; [|lia].
          exfalso. apply Hno. rewrite Hk in Hp. injection Hp as <-. auto. }
      unfold connect.
      destruct (Nat.eqb index k) eqn:Eik.
      { apply Nat.eqb_eq in Eik. apply Hskip. intros [Hne _]. congruence. }
      apply Nat.eqb_neq in Eik.
      destruct (Rlt_dec (distance pos otherPos) (roomSize g * 1.2))
        as [Hnear|Hfar]; [|apply Hskip; tauto].
      assert (Hfresh : some_to conns (roomId levelIndex k) = false).
      { destruct (some_to conns (roomId levelIndex k)) eqn:E; [|reflexivity].
        apply some_to_true in E as (c0 & Hc0 & Hto).
        apply IH in Hc0 as (j & p & Hj & _ & _ & _ & ->). simpl in Hto.
        apply roomId_inj in Hto. lia. }
      rewrite Hfresh. simpl. intros c. rewrite elem_of_app, (IH c). split.
      + intros [(j & p & Hj & Hrest) | Hc].
        * exists j, p. split; [lia|exact Hrest].
        * apply list_elem_of_singleton in Hc. subst c.
          exists k, otherPos. repeat split; auto.
      + intros (j & p & Hj & Hji & Hp & Hd & Hc).
        destruct (decide (j = k)) as [->|Hne].
        * right. rewrite Hk in Hp. injection Hp as <-.
          apply list_elem_of_singleton. exact Hc.
        * left. exists j, p. repeat split; auto. lia. }
  intros c. rewrite (H c). split.
  - intros (j & p & _ & Hrest). exists j, p. exact Hrest.
  - intros (j & p & Hji & Hp & Hrest). exists j, p.
    split; [apply lookup_lt_Some in Hp; exact Hp|]. auto.
Qed.

Lemma distance_sym (p q : Position) : distance p q = distance q p.
Proof. unfold distance. f_equal. ring. Qed.

Lemma rooms_connected_iff (g : BuildingGrammar) (levelIndex : nat)
    (i j : nat) (a b : Room) :
  level_rooms (generateLevel g levelIndex) !! i = Some a ->
  level_rooms (generateLevel g levelIndex) !! j = Some b ->
  connected_to a b
  <-> i <> j
      /\ distance (room_position a) (room_position b) < roomSize g * 1.2.
Proof.
  intros Ha Hb.
  apply level_room_inv in Ha as (pa & Hpa & ->).
  apply level_room_inv in Hb as (pb & Hpb & ->).
  rewrite !room_position_makeRoom. unfold connected_to. simpl. split.
  - intros (c & Hc & Hto).
    apply connections_exact in Hc as (k & pk & Hki & Hpk & Hd & ->).
    simpl in Hto. apply roomId_inj in Hto. subst k.
    rewrite Hpb in Hpk. injection Hpk as <-. auto.
  - intros [Hij Hd]. eexists. split.
    + apply connections_exact. exists j, pb. repeat split; eauto.
    + reflexivity.
Qed.

(** X9.  Two rooms of a level are connected exactly when they are different
    rooms and their centres are less than roomSize * 1.2 apart: a room
    never connects to a far room, and never misses a near one. *)
Theorem connected_iff_near (g : BuildingGrammar) (levelIndex : nat)
    (i j : nat) (a b : Room) :
  level_rooms (generateLevel g levelIndex) !! i = Some a ->
  level_rooms (generateLevel g levelIndex) !! j = Some b ->
  connected_to a b
  <-> i <> j
      /\ distance (room_position a) (room_position b) < roomSize g * 1.2.
Proof. exact (rooms_connected_iff g levelIndex i j a b). Qed.

(** X10.  Connectivity is symmetric: within a level, [a] lists [b] exactly
    when [b] lists [a]. *)
Theorem connected_sym (g : BuildingGrammar) (levelIndex : nat)
    (i j : nat) (a b : Room) :
  level_rooms (generateLevel g levelIndex) !! i = Some a ->
  level_rooms (generateLevel g levelIndex) !! j = Some b ->
  connected_to a b <-> connected_to b a.
Proof.
  intros Ha Hb.
  rewrite (rooms_connected_iff g levelIndex i j a b Ha Hb).
  rewrite (rooms_connected_iff g levelIndex j i b a Hb Ha).
  rewrite (distance_sym (room_position b) (room_position a)).
  split; intros [Hne Hd]; split; auto.
Qed.

(** The first two rooms of the default level, 4.4 apart. *)
Lemma default_first_rooms :
  exists a b,
    level_rooms (generateLevel (constructor defaultConfig) 0) !! 0%nat = Some a
    /\ level_rooms (generateLevel (constructor defaultConfig) 0) !! 1%nat
       = Some b
    /\ room_position a = mkPosition (-2.2) (-2.2)
    /\ room_position b = mkPosition 2.2 (-2.2).
Proof.
  eexists. eexists.
  rewrite !level_rooms_lookup, default_positions. simpl.
  split; [reflexivity|]. split; [reflexivity|].
  rewrite !room_position_makeRoom. split; reflexivity.
Qed.

Lemma default_first_rooms_near (a b : Room) :
  room_position a = mkPosition (-2.2) (-2.2) ->
  room_position b = mkPosition 2.2 (-2.2) ->
  distance (room_position a) (room_position b)
  < roomSize (constructor defaultConfig) * 1.2.
Proof.
  intros -> ->. apply RealFacts.sqrt_below; simpl; lra.
Qed.

(** The statement at work on the first two rooms of the default
    level. *)
Lemma connected_iff_near_witness :
  exists a b,
    level_rooms (generateLevel (constructor defaultConfig) 0) !! 0%nat = Some a
    /\ level_rooms (generateLevel (constructor defaultConfig) 0) !! 1%nat
       = Some b
    /\ connected_to a b.
Proof.
  destruct default_first_rooms as (a & b & Ha & Hb & Hpa & Hpb).
  exists a, b. split; [exact Ha|]. split; [exact Hb|].
  apply (connected_iff_near (constructor defaultConfig) 0 0 1 a b Ha Hb).
  split; [discriminate|]. apply default_first_rooms_near; assumption.
Defined.

(** The statement at work on the first two rooms of the default
    level. *)
Lemma connected_sym_witness :
  exists a b,
    level_rooms (generateLevel (constructor defaultConfig) 0) !! 0%nat = Some a
    /\ level_rooms (generateLevel (constructor defaultConfig) 0) !! 1%nat
       = Some b
    /\ (connected_to a b <-> connected_to b a).
Proof.
  destruct default_first_rooms as (a & b & Ha & Hb & _).
  exists a, b. split; [exact Ha|]. split; [exact Hb|].
  apply (connected_sym (constructor defaultConfig) 0 0 1 a b Ha Hb).
Defined.

(** *** Directions *)

Lemma getDirection_opposite (p q : Position) :
  p <> q -> getDirection q p = opposite (getDirection p q).
Proof.
  intros Hne. unfold getDirection.
  assert (Hd : pos_x q - pos_x p <> 0 \/ pos_z q - pos_z p <> 0).
  { destruct (Req_dec_T (pos_x q - pos_x p) 0) as [Hx|Hx]; [|left; exact Hx].
    destruct (Req_dec_T (pos_z q - pos_z p) 0) as [Hz|Hz]; [|right; exact Hz].
    exfalso. apply Hne. destruct p, q. simpl in *. f_equal; lra. }
  rewrite (Rabs_minus_sym (pos_x p) (pos_x q)).
  rewrite (Rabs_minus_sym (pos_z p) (pos_z q)).
  destruct (Rgt_dec (Rabs (pos_x q - pos_x p)) (Rabs (pos_z q - pos_z p)))
    as [Hx|Hz].
  - destruct (Rgt_dec (pos_x p - pos_x q) 0),
             (Rgt_dec (pos_x q - pos_x p) 0); simpl; try reflexivity;
      exfalso; unfold Rabs in Hx; repeat destruct Rcase_abs; lra.
  - destruct (Rgt_dec (pos_z p - pos_z q) 0),
             (Rgt_dec (pos_z q - pos_z p) 0); simpl; try reflexivity;
      exfalso; unfold Rabs in Hz; repeat destruct Rcase_abs; lra.
Qed.

Lemma door_directions (g : BuildingGrammar) (levelIndex : nat)
    (i j : nat) (a b : Room) (c c' : Connection) :
  level_rooms (generateLevel g levelIndex) !! i = Some a ->
  level_rooms (generateLevel g levelIndex) !! j = Some b ->
  c ∈ room_connections a -> conn_to c = room_id b ->
  c' ∈ room_connections b -> conn_to c' = room_id a ->
  conn_direction c = getDirection (room_position a) (room_position b)
  /\ (room_position a <> room_position b ->
      conn_direction c' = opposite (conn_direction c)).
Proof.
  intros Ha Hb Hc Hto Hc' Hto'.
  apply level_room_inv in Ha as (pa & Hpa & ->).
  apply level_room_inv in Hb as (pb & Hpb & ->).
  rewrite !room_position_makeRoom. simpl in *.
  apply connections_exact in Hc as (k & pk & _ & Hpk & _ & ->).
  apply connections_exact in Hc' as (k' & pk' & _ & Hpk' & _ & ->).
  simpl in *. apply roomId_inj in Hto, Hto'. subst k k'.
  rewrite Hpb in Hpk. injection Hpk as <-.
  rewrite Hpa in Hpk'. injection Hpk' as <-.
  split; [reflexivity|]. intros Hne. apply getDirection_opposite. exact Hne.
Qed.

(** X11.  The direction of a connection is the one [getDirection] gives from
    the room to its target; and when the two rooms are not at the same
    place, the connection back has the opposite direction: a door to
    the east on one side is a door to the west on the other. *)
Theorem doors_face_each_other (g : BuildingGrammar) (levelIndex : nat)
    (i j : nat) (a b : Room) (c c' : Connection) :
  level_rooms (generateLevel g levelIndex) !! i = Some a ->
  level_rooms (generateLevel g levelIndex) !! j = Some b ->
  c ∈ room_connections a -> conn_to c = room_id b ->
  c' ∈ room_connections b -> conn_to c' = room_id a ->
  conn_direction c = getDirection (room_position a) (room_position b)
  /\ (room_position a <> room_position b ->
      conn_direction c' = opposite (conn_direction c)).
Proof. exact (door_directions g levelIndex i j a b c c'). Qed.

(** The statement at work on the first two rooms of the default level:
    east one way, west the other. *)
Lemma doors_face_each_other_witness :
  exists a b c c',
    c ∈ room_connections a /\ conn_to c = room_id b
    /\ c' ∈ room_connections b /\ conn_to c' = room_id a
    /\ conn_direction c' = opposite (conn_direction c).
Proof.
  destruct default_first_rooms as (a & b & Ha & Hb & Hpa & Hpb).
  pose proof (default_first_rooms_near a b Hpa Hpb) as Hnear.
  destruct (proj2 (rooms_connected_iff _ _ _ _ _ _ Ha Hb))
    as (c & Hc & Hto); [split; [discriminate|exact Hnear]|].
  destruct (proj2 (rooms_connected_iff _ _ _ _ _ _ Hb Ha))
    as (c' & Hc' & Hto');
    [split; [discriminate|rewrite distance_sym; exact Hnear]|].
  exists a, b, c, c'.
  split; [exact Hc|]. split; [exact Hto|].
  split; [exact Hc'|]. split; [exact Hto'|].
  apply (doors_face_each_other (constructor defaultConfig) 0 0 1 a b c c'
           Ha Hb Hc Hto Hc' Hto').
  rewrite Hpa, Hpb. intros H. injection H as H. lra.
Defined.

(** X12.  With a roomSize that is not positive the threshold roomSize * 1.2
    is not positive either, and no room is connected to any other. *)
Theorem nonpositive_roomSize_isolates (g : BuildingGrammar)
    (levelIndex : nat) (r : Room) :
  roomSize g <= 0 ->
  r ∈ level_rooms (generateLevel g levelIndex) ->
  room_connections r = [].
Proof.
  intros Hsize Hr.
  apply list_elem_of_lookup in Hr as (i & Hr).
  apply level_room_inv in Hr as (pos & _ & ->). simpl.
  destruct (forEach (connect g levelIndex pos i)
              (generateRoomPositions g levelIndex) []) as [|c rest] eqn:E;
    [reflexivity|].
  exfalso.
  assert (Hc : c ∈ forEach (connect g levelIndex pos i)
                     (generateRoomPositions g levelIndex) [])
    by (rewrite E; apply list_elem_of_here).
  apply connections_exact in Hc as (j & p & _ & _ & Hd & _).
  unfold distance in Hd.
  pose proof (sqrt_pos ((pos_x pos - pos_x p) ^ 2
                        + (pos_z pos - pos_z p) ^ 2)). lra.
Qed.

(** The statement at work on { roomSize: -4 }. *)
Lemma nonpositive_roomSize_isolates_witness :
  let g := constructor (mkBuildingConfig None None (Some (-4)) None None
                                         JsUndefined None) in
  roomSize g <= 0
  /\ exists r, level_rooms (generateLevel g 0) !! 0%nat = Some r
               /\ room_connections r = [].
Proof.
  cbv zeta.
  set (g := constructor (mkBuildingConfig None None (Some (-4)) None None
                                          JsUndefined None)).
  assert (Hsize : roomSize g <= 0).
  { simpl. destruct (Req_dec_T (-4) 0); lra. }
  split; [exact Hsize|].
  destruct (lookup_lt_is_Some_2 (level_rooms (generateLevel g 0)) 0)
    as [r Hr].
  { rewrite length_level_rooms. simpl. lia. }
  exists r. split; [exact Hr|].
  apply (nonpositive_roomSize_isolates g 0 r Hsize).
  apply list_elem_of_lookup. exists 0%nat. exact Hr.
Defined.

(** *** The layouts *)

Lemma near_iff_squares (p q : Position) (t : R) :
  0 < t ->
  distance p q < t
  <-> (pos_x p - pos_x q) * (pos_x p - pos_x q)
      + (pos_z p - pos_z q) * (pos_z p - pos_z q) < t * t.
Proof.
  intros Ht. unfold distance.
  replace ((pos_x p - pos_x q) ^ 2 + (pos_z p - pos_z q) ^ 2)
    with ((pos_x p - pos_x q) * (pos_x p - pos_x q)
          + (pos_z p - pos_z q) * (pos_z p - pos_z q)) by ring.
  set (d := (pos_x p - pos_x q) * (pos_x p - pos_x q)
            + (pos_z p - pos_z q) * (pos_z p - pos_z q)).
  assert (0 <= d) as Hd.
  { unfold d. apply Rplus_le_le_0_compat; apply Rle_0_sqr. }
  split.
  - intros H. destruct (Rlt_le_dec d (t * t)) as [Hlt|Hge]; [exact Hlt|].
    exfalso. revert H. apply RealFacts.sqrt_not_below; lra.
  - intros H. apply RealFacts.sqrt_below; lra.
Qed.

(** On a lattice of pitch size * 1.1, the cells nearer than size * 1.2
    are the cell itself and the four cells that share a side with it. *)
Lemma lattice_near (size ox oz : R) (ci ri cj rj : nat) (p q : Position) :
  0 < size ->
  pos_x p = (INR ci - ox) * (size * 1.1) ->
  pos_z p = (INR ri - oz) * (size * 1.1) ->
  pos_x q = (INR cj - ox) * (size * 1.1) ->
  pos_z q = (INR rj - oz) * (size * 1.1) ->
  distance p q < size * 1.2
  <-> (ci = cj /\ ri = rj) \/ adjacent_cells ci ri cj rj.
Proof.
  intros Hsize Hpx Hpz Hqx Hqz.
  rewrite near_iff_squares by lra. rewrite Hpx, Hpz, Hqx, Hqz.
  rewrite !INR_IZR_INZ.
  set (dc := (Z.of_nat ci - Z.of_nat cj)%Z).
  set (dr := (Z.of_nat ri - Z.of_nat rj)%Z).
  replace ((IZR (Z.of_nat ci) - ox) * (size * 1.1)
           - (IZR (Z.of_nat cj) - ox) * (size * 1.1))
    with (IZR dc * (size * 1.1))
    by (unfold dc; rewrite minus_IZR; ring).
  replace ((IZR (Z.of_nat ri) - oz) * (size * 1.1)
           - (IZR (Z.of_nat rj) - oz) * (size * 1.1))
    with (IZR dr * (size * 1.1))
    by (unfold dr; rewrite minus_IZR; ring).
  replace (IZR dc * (size * 1.1) * (IZR dc * (size * 1.1))
           + IZR dr * (size * 1.1) * (IZR dr * (size * 1.1)))
    with (IZR (dc * dc + dr * dr) * (1.21 * (size * size)))
    by (rewrite plus_IZR, !mult_IZR; lra).
  assert (0 < size * size) as Hs2 by nra.
  split.
  - intros H.
    assert (IZR (dc * dc + dr * dr) < IZR 2) as Hlt by nra.
    apply lt_IZR in Hlt.
    assert (-1 <= dc <= 1)%Z as Hdc by nia.
    assert (-1 <= dr <= 1)%Z as Hdr by nia.
    unfold adjacent_cells.
    assert (dc = 0 \/ dr = 0)%Z as Hzero by nia.
    unfold dc, dr in *. lia.
  - intros Hcases.
    assert (dc * dc + dr * dr <= 1)%Z as Hle.
    { unfold adjacent_cells in Hcases. unfold dc, dr.
      destruct Hcases as [[-> ->] | [[-> [-> | ->]] | [-> [-> | ->]]]]; nia. }
    apply IZR_le in Hle. nra.
Qed.

Lemma lookup_positions_grid (g : BuildingGrammar) (levelIndex i : nat)
    (p : Position) :
  roomLayout g = "grid" ->
  generateRoomPositions g levelIndex !! i = Some p ->
  (i < roomsPerLevel g)%nat
  /\ pos_x p = (INR (i mod ceil_sqrt (roomsPerLevel g))
                - (INR (ceil_sqrt (roomsPerLevel g)) - 1) / 2)
               * (roomSize g * 1.1)
  /\ pos_z p = (INR (i / ceil_sqrt (roomsPerLevel g))
                - (INR (ceil_div (roomsPerLevel g)
                                 (ceil_sqrt (roomsPerLevel g))) - 1) / 2)
               * (roomSize g * 1.1).
Proof.
  intros Hlayout. unfold generateRoomPositions. rewrite Hlayout. simpl.
  intros H. apply list_lookup_fmap_Some in H as (k & Hp & Hk).
  apply lookup_seq in Hk. destruct Hk as [Hk Hlt]. simpl in Hk.
  subst k p. simpl. auto.
Qed.

(** X13.  In the grid layout, with a positive roomSize, a room is connected
    exactly to the rooms next to it in its row and in its column: never
    across a diagonal, and never from the end of a row to the start of
    the next. *)
Theorem grid_connects_side_neighbours (g : BuildingGrammar)
    (levelIndex : nat) (i j : nat) (a b : Room) :
  roomLayout g = "grid" ->
  0 < roomSize g ->
  level_rooms (generateLevel g levelIndex) !! i = Some a ->
  level_rooms (generateLevel g levelIndex) !! j = Some b ->
  let cols := ceil_sqrt (roomsPerLevel g) in
  connected_to a b
  <-> adjacent_cells (i mod cols) (i / cols) (j mod cols) (j / cols).
Proof.
  intros Hlayout Hsize Ha Hb cols.
  rewrite (rooms_connected_iff g levelIndex i j a b Ha Hb).
  apply level_room_inv in Ha as (pa & Hpa & ->).
  apply level_room_inv in Hb as (pb & Hpb & ->).
  rewrite !room_position_makeRoom.
  destruct (lookup_positions_grid g levelIndex i pa Hlayout Hpa)
    as (Hi & Hax & Haz).
  destruct (lookup_positions_grid g levelIndex j pb Hlayout Hpb)
    as (Hj & Hbx & Hbz).
  rewrite (lattice_near (roomSize g) _ _ _ _ _ _ pa pb Hsize Hax Haz Hbx Hbz).
  fold cols.
  assert (0 < cols)%nat as Hcols
      by (unfold cols, ceil_sqrt; apply Nat.sqrt_up_pos; lia).
  pose proof (Nat.div_mod_eq i cols) as Ei.
  pose proof (Nat.div_mod_eq j cols) as Ej.
  split.
  - intros [Hij [[Hc Hr] | Hadj]]; [|exact Hadj].
    exfalso. apply Hij. rewrite Ei, Ej, Hc, Hr. reflexivity.
  - intros Hadj. split; [|right; exact Hadj].
    intros ->. unfold adjacent_cells in Hadj. lia.
Qed.

(** The statement at work on the default level: rooms 0 and 1 share a
    side of the 2 x 2 grid. *)
Lemma grid_connects_side_neighbours_witness :
  exists a b,
    level_rooms (generateLevel (constructor defaultConfig) 0) !! 0%nat = Some a
    /\ level_rooms (generateLevel (constructor defaultConfig) 0) !! 1%nat
       = Some b
    /\ connected_to a b.
Proof.
  destruct default_first_rooms as (a & b & Ha & Hb & _).
  exists a, b. split; [exact Ha|]. split; [exact Hb|].
  apply (grid_connects_side_neighbours (constructor defaultConfig) 0 0 1 a b).
  - reflexivity.
  - simpl. lra.
  - exact Ha.
  - exact Hb.
  - vm_compute. left. split; [reflexivity|]. right. reflexivity.
Defined.

Lemma lookup_positions_linear (g : BuildingGrammar) (levelIndex i : nat)
    (p : Position) :
  roomLayout g = "linear" ->
  generateRoomPositions g levelIndex !! i = Some p ->
  (i < roomsPerLevel g)%nat
  /\ pos_x p = (INR i - (INR (roomsPerLevel g) - 1) / 2) * (roomSize g * 1.1)
  /\ pos_z p = 0.
Proof.
  intros Hlayout. unfold generateRoomPositions. rewrite Hlayout. simpl.
  intros H. apply list_lookup_fmap_Some in H as (k & Hp & Hk).
  apply lookup_seq in Hk. destruct Hk as [Hk Hlt]. simpl in Hk.
  subst k p. simpl. auto.
Qed.

(** X14.  In the linear layout, with a positive roomSize, a room is connected
    exactly to the room before it and the room after it: the level is
    a corridor. *)
Theorem linear_connects_consecutive (g : BuildingGrammar)
    (levelIndex : nat) (i j : nat) (a b : Room) :
  roomLayout g = "linear" ->
  0 < roomSize g ->
  level_rooms (generateLevel g levelIndex) !! i = Some a ->
  level_rooms (generateLevel g levelIndex) !! j = Some b ->
  connected_to a b <-> (i = S j \/ j = S i).
Proof.
  intros Hlayout Hsize Ha Hb.
  rewrite (rooms_connected_iff g levelIndex i j a b Ha Hb).
  apply level_room_inv in Ha as (pa & Hpa & ->).
  apply level_room_inv in Hb as (pb & Hpb & ->).
  rewrite !room_position_makeRoom.
  destruct (lookup_positions_linear g levelIndex i pa Hlayout Hpa)
    as (Hi & Hax & Haz).
  destruct (lookup_positions_linear g levelIndex j pb Hlayout Hpb)
    as (Hj & Hbx & Hbz).
  rewrite (lattice_near (roomSize g) ((INR (roomsPerLevel g) - 1) / 2) 0
             i 0 j 0 pa pb Hsize Hax);
    [|rewrite Haz; simpl; ring|exact Hbx|rewrite Hbz; simpl; ring].
  unfold adjacent_cells. split.
  - intros [Hij [[Hc _] | [[_ H] | [_ [H|H]]]]];
      [contradiction|exact H|discriminate|discriminate].
  - intros H. split; [lia|]. right. left. split; [reflexivity|exact H].
Qed.

(** The statement at work on a corridor of 3 rooms. *)
Lemma linear_connects_consecutive_witness :
  let g := constructor (mkBuildingConfig None (Some 3%nat) None None None
                                         JsUndefined (Some "linear")) in
  exists a b,
    level_rooms (generateLevel g 0) !! 1%nat = Some a
    /\ level_rooms (generateLevel g 0) !! 2%nat = Some b
    /\ connected_to a b.
Proof.
  cbv zeta.
  set (g := constructor (mkBuildingConfig None (Some 3%nat) None None None
                                          JsUndefined (Some "linear"))).
  destruct (lookup_lt_is_Some_2 (level_rooms (generateLevel g 0)) 1)
    as [a Ha]; [rewrite length_level_rooms; simpl; lia|].
  destruct (lookup_lt_is_Some_2 (level_rooms (generateLevel g 0)) 2)
    as [b Hb]; [rewrite length_level_rooms; simpl; lia|].
  exists a, b. split; [exact Ha|]. split; [exact Hb|].
  apply (linear_connects_consecutive g 0 1 2 a b).
  - reflexivity.
  - simpl. lra.
  - exact Ha.
  - exact Hb.
  - right. reflexivity.
Defined.

Lemma lookup_positions_fallback (g : BuildingGrammar) (levelIndex i : nat)
    (p : Position) :
  roomLayout g <> "grid" -> roomLayout g <> "linear" ->
  roomLayout g <> "radial" ->
  generateRoomPositions g levelIndex !! i = Some p ->
  (i < roomsPerLevel g)%nat
  /\ pos_x p = (INR (i mod 3) - 1) * (roomSize g * 1.1)
  /\ pos_z p = (INR (i / 3) - 1) * (roomSize g * 1.1).
Proof.
  intros Hg Hl Hr. unfold generateRoomPositions.
  apply String.eqb_neq in Hg, Hl, Hr. rewrite Hg, Hl, Hr.
  intros H. apply list_lookup_fmap_Some in H as (k & Hp & Hk).
  apply lookup_seq in Hk. destruct Hk as [Hk Hlt]. simpl in Hk.
  subst k p. simpl. auto.
Qed.

(** X15.  A layout name that is none of "grid", "linear" and "radial" gives
    rows of 3 rooms; with a positive roomSize a room is connected
    exactly to the rooms that share a side with it in that 3-column
    grid. *)
Theorem fallback_connects_side_neighbours (g : BuildingGrammar)
    (levelIndex : nat) (i j : nat) (a b : Room) :
  roomLayout g <> "grid" -> roomLayout g <> "linear" ->
  roomLayout g <> "radial" ->
  0 < roomSize g ->
  level_rooms (generateLevel g levelIndex) !! i = Some a ->
  level_rooms (generateLevel g levelIndex) !! j = Some b ->
  connected_to a b
  <-> adjacent_cells (i mod 3) (i / 3) (j mod 3) (j / 3).
Proof.
  intros Hg Hl Hr Hsize Ha Hb.
  rewrite (rooms_connected_iff g levelIndex i j a b Ha Hb).
  apply level_room_inv in Ha as (pa & Hpa & ->).
  apply level_room_inv in Hb as (pb & Hpb & ->).
  rewrite !room_position_makeRoom.
  destruct (lookup_positions_fallback g levelIndex i pa Hg Hl Hr Hpa)
    as (Hi & Hax & Haz).
  destruct (lookup_positions_fallback g levelIndex j pb Hg Hl Hr Hpb)
    as (Hj & Hbx & Hbz).
  rewrite (lattice_near (roomSize g) 1 1 _ _ _ _ pa pb Hsize Hax Haz Hbx Hbz).
  pose proof (Nat.div_mod_eq i 3) as Ei.
  pose proof (Nat.div_mod_eq j 3) as Ej.
  split.
  - intros [Hij [[Hc Hr'] | Hadj]]; [|exact Hadj].
    exfalso. apply Hij. lia.
  - intros Hadj. split; [|right; exact Hadj].
    intros ->. unfold adjacent_cells in Hadj. lia.
Qed.

(** The statement at work on the layout name "spiral" with 4 rooms:
    room 3 starts the second row, under room 0. *)
Lemma fallback_connects_side_neighbours_witness :
  let g := constructor (mkBuildingConfig None None None None None
                                         JsUndefined (Some "spiral")) in
  exists a b,
    level_rooms (generateLevel g 0) !! 0%nat = Some a
    /\ level_rooms (generateLevel g 0) !! 3%nat = Some b
    /\ connected_to a b.
Proof.
  cbv zeta.
  set (g := constructor (mkBuildingConfig None None None None None
                                          JsUndefined (Some "spiral"))).
  destruct (lookup_lt_is_Some_2 (level_rooms (generateLevel g 0)) 0)
    as [a Ha]; [rewrite length_level_rooms; simpl; lia|].
  destruct (lookup_lt_is_Some_2 (level_rooms (generateLevel g 0)) 3)
    as [b Hb]; [rewrite length_level_rooms; simpl; lia|].
  exists a, b. split; [exact Ha|]. split; [exact Hb|].
  apply (fallback_connects_side_neighbours g 0 0 3 a b);
    try (simpl; discriminate).
  - simpl. lra.
  - exact Ha.
  - exact Hb.
  - vm_compute. right. split; [reflexivity|]. right. reflexivity.
Defined.

(** X16.  In the radial layout every room centre lies on the circle of
    radius roomSize * 1.1 * 1.5 around the origin. *)
Theorem radial_rooms_on_circle (g : BuildingGrammar) (levelIndex : nat)
    (r : Room) :
  roomLayout g = "radial" ->
  r ∈ level_rooms (generateLevel g levelIndex) ->
  room_x r * room_x r + room_z r * room_z r
  = (roomSize g * 1.1 * 1.5) * (roomSize g * 1.1 * 1.5).
Proof.
  intros Hlayout Hr.
  apply list_elem_of_lookup in Hr as (i & Hr).
  apply level_room_inv in Hr as (pos & Hpos & ->). simpl.
  unfold generateRoomPositions in Hpos. rewrite Hlayout in Hpos.
  simpl in Hpos.
  apply list_lookup_fmap_Some in Hpos as (k & -> & _). simpl.
  pose proof (sin2_cos2 (INR k * (PI * 2 / INR (roomsPerLevel g)))) as H.
  unfold Rsqr in H.
  set (t := INR k * (PI * 2 / INR (roomsPerLevel g))) in *.
  replace (cos t * (roomSize g * 1.1 * 1.5) * (cos t * (roomSize g * 1.1 * 1.5))
           + sin t * (roomSize g * 1.1 * 1.5) * (sin t * (roomSize g * 1.1 * 1.5)))
    with ((sin t * sin t + cos t * cos t)
          * (roomSize g * 1.1 * 1.5 * (roomSize g * 1.1 * 1.5))) by ring.
  rewrite H. ring.
Qed.

(** The statement at work on { roomLayout: "radial" }. *)
Lemma radial_rooms_on_circle_witness :
  let g := constructor (mkBuildingConfig None None None None None
                                         JsUndefined (Some "radial")) in
  exists r,
    level_rooms (generateLevel g 0) !! 2%nat = Some r
    /\ room_x r * room_x r + room_z r * room_z r
       = (roomSize g * 1.1 * 1.5) * (roomSize g * 1.1 * 1.5).
Proof.
  cbv zeta.
  set (g := constructor (mkBuildingConfig None None None None None
                                          JsUndefined (Some "radial"))).
  destruct (lookup_lt_is_Some_2 (level_rooms (generateLevel g 0)) 2)
    as [r Hr]; [rewrite length_level_rooms; simpl; lia|].
  exists r. split; [exact Hr|].
  apply (radial_rooms_on_circle g 0 r); [reflexivity|].
  apply list_elem_of_lookup. exists 2%nat. exact Hr.
Defined.

(** *** The whole building *)

(** The shape of the building of a grammar that has rooms. *)
Lemma shape_of_grammar (g : BuildingGrammar) :
  (0 < roomsPerLevel g)%nat ->
  exists b,
    generate g = Normal b
    /\ List.length (building_levels b) = levels g
    /\ forall k lv,
         building_levels b !! k = Some lv ->
         level_index lv = k
         /\ level_y lv = INR k * levelHeight g
         /\ List.length (level_rooms lv) = roomsPerLevel g
         /\ forall r, r ∈ level_rooms lv ->
                      room_level r = k
                      /\ room_y r = level_y lv
                      /\ room_width r = roomSize g
                      /\ room_depth r = roomSize g
                      /\ room_height r = levelHeight g.
Proof.
  intros Hpos.
  destruct (generate_spec g Hpos) as (stairs & Hgen & _).
  eexists. split; [exact Hgen|].
  split; [apply (generate_stair_count _ _ Hpos Hgen)|].
  intros k lv Hlv.
  destruct (generated_levels _ _ _ _ Hpos Hgen Hlv) as [_ ->].
  split; [reflexivity|]. split; [reflexivity|].
  split; [apply length_level_rooms|].
  intros r Hr. apply list_elem_of_lookup in Hr as (i & Hr).
  apply level_room_inv in Hr as (pos & _ & ->). simpl. auto.
Qed.

Lemma stored_roomsPerLevel_pos (config : BuildingCounts.IntegerConfig) :
  (forall n, BuildingCounts.integer_roomsPerLevel config
             = Some (BuildingCounts.Integer n) ->
             (0 <= n)%Z) ->
  (0 < BuildingCounts.stored_roomsPerLevel config)%Z.
Proof.
  intros Hn. unfold BuildingCounts.stored_roomsPerLevel,
    BuildingCounts.or_integer.
  destruct (BuildingCounts.integer_roomsPerLevel config) as [[n|]|];
    [|lia|lia].
  specialize (Hn n eq_refl).
  destruct (Z.eqb n 0) eqn:E; [lia|]. apply Z.eqb_neq in E. lia.
Qed.

(** X17.  For a configuration whose counts are integers or NaN and
    whose roomsPerLevel is not a negative integer, [generate] returns a
    building and does not throw: as many levels as the constructor
    stored (none for a negative count), level [k] at height
    k * levelHeight with index [k] and the stored number of rooms, every
    room on the floor of its level with the configured footprint and
    height. *)
Theorem building_shape (config : BuildingCounts.IntegerConfig) :
  (forall n, BuildingCounts.integer_roomsPerLevel config
             = Some (BuildingCounts.Integer n) ->
             (0 <= n)%Z) ->
  let g := BuildingCounts.constructor config in
  exists b,
    generate g = Normal b
    /\ List.length (building_levels b)
       = Z.to_nat (BuildingCounts.stored_levels config)
    /\ forall k lv,
         building_levels b !! k = Some lv ->
         level_index lv = k
         /\ level_y lv = INR k * levelHeight g
         /\ Z.of_nat (List.length (level_rooms lv))
            = BuildingCounts.stored_roomsPerLevel config
         /\ forall r, r ∈ level_rooms lv ->
                      room_level r = k
                      /\ room_y r = level_y lv
                      /\ room_width r = roomSize g
                      /\ room_depth r = roomSize g
                      /\ room_height r = levelHeight g.
Proof.
  intros Hn. cbv zeta.
  pose proof (stored_roomsPerLevel_pos config Hn) as Hstored.
  assert (Hpos : (0 < roomsPerLevel (BuildingCounts.constructor config))%nat).
  { simpl. unfold BuildingCounts.turns. lia. }
  destruct (shape_of_grammar _ Hpos) as (b & Hgen & Hlen & Hshape).
  exists b. split; [exact Hgen|]. split; [exact Hlen|].
  intros k lv Hlv.
  destruct (Hshape k lv Hlv) as (Hi & Hy & Hrooms & Hr).
  split; [exact Hi|]. split; [exact Hy|]. split; [|exact Hr].
  rewrite Hrooms. simpl. unfold BuildingCounts.turns. lia.
Qed.

(** The statement at work on { levels: 2, roomsPerLevel: 5 }. *)
Lemma building_shape_witness :
  let config :=
    BuildingCounts.mkIntegerConfig
      (Some (BuildingCounts.Integer 2)) (Some (BuildingCounts.Integer 5))
      None None None JsUndefined None in
  exists b,
    generate (BuildingCounts.constructor config) = Normal b
    /\ List.length (building_levels b) = 2%nat.
Proof.
  cbv zeta.
  destruct (building_shape
              (BuildingCounts.mkIntegerConfig
                 (Some (BuildingCounts.Integer 2))
                 (Some (BuildingCounts.Integer 5))
                 None None None JsUndefined None))
    as (b & Hgen & Hlen & _).
  { simpl. intros n Hn. injection Hn as <-. lia. }
  exists b. split; [exact Hgen|exact Hlen].
Defined.

(** X18.  Every stair of a generated building, for any number of levels: the
    stair of index [k] leaves level [k], which is not the top level; it
    stands on the first room of that level, at the height of its floor,
    with a footprint of 1 by 1 and the height of a level. *)
Theorem stairs_shape (config : BuildingConfig) (b : BuildingModel)
    (k : nat) (st : Stair) :
  generate (constructor config) = Normal b ->
  building_stairs b !! k = Some st ->
  (k < levels (constructor config) - 1)%nat
  /\ stair_level st = k
  /\ stair_width st = 1.0 /\ stair_depth st = 1.0
  /\ stair_height st = levelHeight (constructor config)
  /\ exists lv firstRoom,
      building_levels b !! k = Some lv
      /\ level_rooms lv !! 0%nat = Some firstRoom
      /\ stair_x st = room_x firstRoom
      /\ stair_z st = room_z firstRoom
      /\ stair_y st = level_y lv.
Proof.
  pose proof (constructor_roomsPerLevel_pos config) as Hpos.
  remember (constructor config) as g eqn:Hg. clear Hg.
  intros Hgen Hst.
  destruct (generate_spec _ Hpos) as (stairs & Hrun & Hall).
  rewrite Hrun in Hgen. injection Hgen as <-.
  cbn [building_stairs building_levels] in *.
  destruct (hasStairs g); [|subst stairs; discriminate].
  destruct (Forall2_lookup_r _ _ _ _ _ Hall Hst) as (l & Hl & Hplaced).
  apply lookup_seq in Hl. destruct Hl as [Hl Hk]. simpl in Hl. subst l.
  destruct Hplaced as (firstRoom & Hf & Hx & Hz & Hy & Hw & Hd & Hh & Hlev).
  split; [exact Hk|]. split; [exact Hlev|]. split; [exact Hw|].
  split; [exact Hd|]. split; [exact Hh|].
  exists (generateLevel g k), firstRoom.
  split; [|auto].
  rewrite list_lookup_fmap, lookup_seq_lt by lia. reflexivity.
Qed.

(** The statement at work on { levels: 5 }: the fourth stair. *)
Lemma stairs_shape_witness :
  let config := mkBuildingConfig (Some 5%nat) None None None None
                                 JsUndefined None in
  exists b st,
    generate (constructor config) = Normal b
    /\ building_stairs b !! 3%nat = Some st
    /\ stair_level st = 3%nat.
Proof.
  cbv zeta.
  set (config := mkBuildingConfig (Some 5%nat) None None None None
                                  JsUndefined None).
  pose proof (constructor_roomsPerLevel_pos config) as Hpos.
  destruct (generate_constructor_normal config) as [b Hgen].
  destruct (generate_stair_count _ _ Hpos Hgen) as [_ Hn].
  destruct (lookup_lt_is_Some_2 (building_stairs b) 3) as [st Hst].
  { rewrite Hn. simpl. lia. }
  exists b, st. split; [exact Hgen|]. split; [exact Hst|].
  apply (stairs_shape config b 3 st Hgen Hst).
Defined.

(** The loop of [generate] when no stair is asked for. *)
Lemma generate_loop_without_stairs (g : BuildingGrammar) :
  (forall level, hasStairs g && (level <? levels g - 1)%nat = false) ->
  forall count level b,
    exists b', generate_loop g count level b = Normal b'.
Proof.
  intros Hno. induction count as [|count IH]; intros level b; simpl.
  - eauto.
  - unfold generate_body. rewrite Hno. simpl. apply IH.
Qed.

Lemma level_rooms_empty (g : BuildingGrammar) (levelIndex : nat) :
  roomsPerLevel g = 0%nat -> level_rooms (generateLevel g levelIndex) = [].
Proof.
  intros H0. apply length_zero_iff_nil.
  rewrite length_level_rooms. exact H0.
Qed.

(** When [generate] throws, in the numbers of turns of a grammar: the
    levels are empty, stairs are enabled and the loop over the levels
    takes at least two turns. *)
Lemma generate_throws_turns (g : BuildingGrammar) :
  generate g = ThrowTypeError
  <-> roomsPerLevel g = 0%nat /\ hasStairs g = true /\ (2 <= levels g)%nat.
Proof.
  split.
  - intros Hthrow.
    destruct (Nat.eq_dec (roomsPerLevel g) 0%nat) as [H0|Hpos].
    + destruct (hasStairs g) eqn:Hs.
      * destruct (le_lt_dec 2%nat (levels g)) as [H2|H1]; [auto|].
        exfalso.
        destruct (generate_loop_without_stairs g) with
          (count := levels g) (level := 0%nat)
          (b := {| building_levels := []; building_stairs := [] |})
          as [b' Hb'].
        { intros level. rewrite Hs. simpl.
          apply Nat.ltb_ge. lia. }
        unfold generate in Hthrow. congruence.
      * exfalso.
        destruct (generate_loop_without_stairs g) with
          (count := levels g) (level := 0%nat)
          (b := {| building_levels := []; building_stairs := [] |})
          as [b' Hb'].
        { intros level. rewrite Hs. reflexivity. }
        unfold generate in Hthrow. congruence.
    + exfalso.
      destruct (generate_spec g) as (stairs & Hrun & _); [lia|]. congruence.
  - intros (H0 & Hs & H2). unfold generate.
    destruct (levels g) as [|[|m]] eqn:Hl; [lia|lia|].
    simpl generate_loop. unfold generate_body at 1.
    rewrite Hs, Hl. simpl.
    unfold generateStairs. rewrite (level_rooms_empty g 0 H0). reflexivity.
Qed.


(** X19.  When [generate] throws, for counts that are integers of
    either sign or NaN.  After the constructor, [generate] throws a
    TypeError exactly when the stored roomsPerLevel is negative (0 and
    NaN were replaced by 4), stairs are enabled and at least two levels
    were stored.  With the two fields set directly on a grammar, it
    throws exactly when roomsPerLevel is NaN, 0 or negative, stairs are
    enabled and levels is an integer from 2 on.  The first stair then reads the x of a first
    room that is not there; in every other case [generate] returns a
    building. *)
Theorem generate_throws_iff :
  (forall config : BuildingCounts.IntegerConfig,
      generate (BuildingCounts.constructor config) = ThrowTypeError
      <-> (BuildingCounts.stored_roomsPerLevel config < 0)%Z
          /\ BuildingCounts.integer_hasStairs config <> JsBool false
          /\ (2 <= BuildingCounts.stored_levels config)%Z)
  /\ (forall (g : BuildingGrammar)
             (levels0 roomsPerLevel0 : BuildingCounts.Count),
         generate (BuildingCounts.withCounts g levels0 roomsPerLevel0)
         = ThrowTypeError
         <-> (roomsPerLevel0 = BuildingCounts.NaN
              \/ exists n, roomsPerLevel0 = BuildingCounts.Integer n
                           /\ (n <= 0)%Z)
             /\ hasStairs g = true
             /\ exists l, levels0 = BuildingCounts.Integer l /\ (2 <= l)%Z).
Proof.
  split.
  - intros config. rewrite generate_throws_turns. simpl.
    rewrite strict_not_equal_false. unfold BuildingCounts.turns.
    assert (BuildingCounts.stored_roomsPerLevel config <> 0%Z) as Hne.
    { unfold BuildingCounts.stored_roomsPerLevel, BuildingCounts.or_integer.
      destruct (BuildingCounts.integer_roomsPerLevel config) as [[n|]|];
        [|lia|lia].
      destruct (Z.eqb n 0) eqn:E; [lia|]. apply Z.eqb_neq in E. exact E. }
    split; intros (Hn & Hs & Hl); (split; [lia|]); (split; [exact Hs|lia]).
  - intros g levels0 roomsPerLevel0. rewrite generate_throws_turns. simpl.
    split.
    + intros (Hn & Hs & Hl). split; [|split; [exact Hs|]].
      * destruct roomsPerLevel0 as [n|]; [right|left; reflexivity].
        exists n. split; [reflexivity|]. simpl in Hn. lia.
      * destruct levels0 as [l|]; simpl in Hl; [|lia].
        exists l. split; [reflexivity|lia].
    + intros (Hn & Hs & l & -> & Hl). split; [|split; [exact Hs|simpl; lia]].
      destruct Hn as [->|(n & -> & Hn)]; simpl; [reflexivity|lia].
Qed.

(** The statement at work on { roomsPerLevel: -1 }, and on a grammar
    with levels set to 2 and roomsPerLevel set to NaN. *)
Lemma generate_throws_iff_witness :
  generate (BuildingCounts.constructor
              (BuildingCounts.mkIntegerConfig
                 None (Some (BuildingCounts.Integer (-1))) None None None
                 JsUndefined None))
  = ThrowTypeError
  /\ generate (BuildingCounts.withCounts (constructor defaultConfig)
                 (BuildingCounts.Integer 2) BuildingCounts.NaN)
     = ThrowTypeError.
Proof.
  destruct generate_throws_iff as [Hconfig Hfields]. split.
  - apply Hconfig. split; [reflexivity|]. split; [discriminate|].
    intros H; discriminate H.
  - apply Hfields. split; [left; reflexivity|]. split; [reflexivity|].
    exists 2%Z. split; [reflexivity|lia].
Defined.

(** *** Walls *)

Lemma direction_eqb_eq (d1 d2 : Direction) :
  direction_eqb d1 d2 = true <-> d1 = d2.
Proof. destruct d1, d2; simpl; split; congruence. Qed.

(** The target of a connection of a generated level is a room of that
    level, so the second test of [hasConnection] always succeeds. *)
Lemma target_in_level (g : BuildingGrammar) (levelIndex : nat)
    (r : Room) (c : Connection) :
  r ∈ level_rooms (generateLevel g levelIndex) ->
  c ∈ room_connections r ->
  existsb (fun r' => String.eqb (room_id r') (conn_to c))
          (level_rooms (generateLevel g levelIndex)) = true.
Proof.
  intros Hr Hc.
  apply list_elem_of_lookup in Hr as (i & Hr).
  apply level_room_inv in Hr as (pos & _ & ->). simpl in Hc.
  apply connections_exact in Hc as (j & pj & _ & Hpj & _ & ->).
  cbn [conn_to]. apply existsb_exists.
  exists (makeRoom g levelIndex (generateRoomPositions g levelIndex) pj j).
  split; [|apply String.eqb_refl].
  apply list_elem_of_In. apply (list_elem_of_lookup_2 _ j).
  rewrite level_rooms_lookup, Hpj. reflexivity.
Qed.

Lemma hasConnection_generated (g : BuildingGrammar) (levelIndex : nat)
    (r : Room) (d : Direction) :
  r ∈ level_rooms (generateLevel g levelIndex) ->
  hasConnection r d (level_rooms (generateLevel g levelIndex)) = true
  <-> exists c, c ∈ room_connections r /\ conn_direction c = d.
Proof.
  intros Hr. unfold hasConnection. rewrite existsb_exists. split.
  - intros (c & Hc & Htest).
    destruct (direction_eqb (conn_direction c) d) eqn:E; [|discriminate].
    exists c. split; [apply list_elem_of_In; exact Hc|].
    apply direction_eqb_eq. exact E.
  - intros (c & Hc & Hd). exists c.
    split; [apply list_elem_of_In; exact Hc|].
    apply direction_eqb_eq in Hd. rewrite Hd.
    apply (target_in_level g levelIndex r c Hr Hc).
Qed.

Lemma walls_generated (g : BuildingGrammar) (levelIndex : nat)
    (r : Room) (d : Direction) :
  r ∈ level_rooms (generateLevel g levelIndex) ->
  In d (walls r (level_rooms (generateLevel g levelIndex)))
  <-> forall c, c ∈ room_connections r -> conn_direction c <> d.
Proof.
  intros Hr. unfold walls. rewrite filter_In. split.
  - intros [_ Hno] c Hc Hd.
    assert (hasConnection r d (level_rooms (generateLevel g levelIndex))
            = true) as Hyes
        by (apply hasConnection_generated; eauto).
    rewrite Hyes in Hno. discriminate.
  - intros Hnone. split; [destruct d; simpl; auto|].
    destruct (hasConnection r d (level_rooms (generateLevel g levelIndex)))
      eqn:E; [|reflexivity].
    apply hasConnection_generated in E as (c & Hc & Hd); [|exact Hr].
    exfalso. apply (Hnone c Hc Hd).
Qed.

(** X20.  A room of a generated level gets a wall on a side exactly when none
    of its connections has the direction of that side. *)
Theorem wall_iff_no_door (g : BuildingGrammar) (levelIndex : nat)
    (r : Room) (d : Direction) :
  r ∈ level_rooms (generateLevel g levelIndex) ->
  In d (walls r (level_rooms (generateLevel g levelIndex)))
  <-> forall c, c ∈ room_connections r -> conn_direction c <> d.
Proof. exact (walls_generated g levelIndex r d). Qed.

(** The statement at work on a room of the default level. *)
Lemma wall_iff_no_door_witness :
  exists r,
    level_rooms (generateLevel (constructor defaultConfig) 0) !! 0%nat = Some r
    /\ (In north (walls r (level_rooms
                            (generateLevel (constructor defaultConfig) 0)))
        <-> forall c, c ∈ room_connections r -> conn_direction c <> north).
Proof.
  destruct default_first_rooms as (a & _ & Ha & _).
  exists a. split; [exact Ha|].
  apply (wall_iff_no_door (constructor defaultConfig) 0 a north).
  apply list_elem_of_lookup. exists 0%nat. exact Ha.
Defined.

(** X21.  Doorways match: when two rooms of a level that are not at the same
    place are near enough to be connected, the first has no wall on the
    side that faces the second, and the second has no wall on the
    opposite side. *)
Theorem doorways_match (g : BuildingGrammar) (levelIndex : nat)
    (i j : nat) (a b : Room) :
  level_rooms (generateLevel g levelIndex) !! i = Some a ->
  level_rooms (generateLevel g levelIndex) !! j = Some b ->
  i <> j ->
  distance (room_position a) (room_position b) < roomSize g * 1.2 ->
  room_position a <> room_position b ->
  let rooms := level_rooms (generateLevel g levelIndex) in
  let d := getDirection (room_position a) (room_position b) in
  ~ In d (walls a rooms) /\ ~ In (opposite d) (walls b rooms).
Proof.
  intros Ha Hb Hij Hnear Hne rooms d. subst rooms d.
  set (d := getDirection (room_position a) (room_position b)).
  assert (Hain : a ∈ level_rooms (generateLevel g levelIndex))
    by (apply list_elem_of_lookup; eauto).
  assert (Hbin : b ∈ level_rooms (generateLevel g levelIndex))
    by (apply list_elem_of_lookup; eauto).
  destruct (proj2 (rooms_connected_iff g levelIndex i j a b Ha Hb))
    as (c & Hc & Hto); [auto|].
  destruct (proj2 (rooms_connected_iff g levelIndex j i b a Hb Ha))
    as (c' & Hc' & Hto'); [rewrite distance_sym; auto|].
  destruct (door_directions g levelIndex i j a b c c'
              Ha Hb Hc Hto Hc' Hto') as [Hdir Hback].
  split.
  - intros Hwall.
    apply (proj1 (walls_generated g levelIndex a d Hain) Hwall c Hc).
    exact Hdir.
  - intros Hwall.
    apply (proj1 (walls_generated g levelIndex b (opposite d) Hbin)
                 Hwall c' Hc').
    rewrite (Hback Hne), Hdir. reflexivity.
Qed.

(** The statement at work on the first two rooms of the default
    level. *)
Lemma doorways_match_witness :
  exists a b,
    level_rooms (generateLevel (constructor defaultConfig) 0) !! 0%nat = Some a
    /\ level_rooms (generateLevel (constructor defaultConfig) 0) !! 1%nat
       = Some b
    /\ ~ In (getDirection (room_position a) (room_position b))
            (walls a (level_rooms
                        (generateLevel (constructor defaultConfig) 0)))
    /\ ~ In (opposite (getDirection (room_position a) (room_position b)))
            (walls b (level_rooms
                        (generateLevel (constructor defaultConfig) 0))).
Proof.
  destruct default_first_rooms as (a & b & Ha & Hb & Hpa & Hpb).
  exists a, b. split; [exact Ha|]. split; [exact Hb|].
  apply (doorways_match (constructor defaultConfig) 0 0 1 a b Ha Hb).
  - discriminate.
  - apply default_first_rooms_near; assumption.
  - rewrite Hpa, Hpb. intros H. injection H as H. lra.
Defined.

(** *** Room identifiers across levels *)

Lemma pretty_N_char_no_dash (x : N) : pretty_N_char x <> "-"%char.
Proof.
  unfold pretty_N_char.
  destruct x as [|p]; [discriminate|].
  repeat (destruct p as [p|p|]; try discriminate).
Qed.

Lemma pretty_N_go_no_dash (x : N) :
  forall s, no_dash s -> no_dash (pretty_N_go x s).
Proof.
  induction (N.lt_wf_0 x) as [x _ IH]. intros s Hs.
  destruct (N.eq_dec x 0%N) as [->|Hx].
  - rewrite pretty_N_go_0. exact Hs.
  - rewrite pretty_N_go_step by lia. apply IH.
    + apply N.div_lt; lia.
    + simpl. split; [apply pretty_N_char_no_dash|exact Hs].
Qed.

Lemma pretty_nat_no_dash (n : nat) : no_dash (pretty n).
Proof.
  unfold pretty, pretty_nat, pretty, pretty_N.
  destruct (decide (N.of_nat n = 0%N)).
  - simpl. split; [discriminate|exact I].
  - apply pretty_N_go_no_dash. exact I.
Qed.

(** Two strings without a dash, each followed by a dash: the first
    dash tells where each one ends. *)
Lemma split_at_dash (s1 : string) :
  forall s2 r1 r2,
    no_dash s1 -> no_dash s2 ->
    s1 +:+ String "-" r1 = s2 +:+ String "-" r2 ->
    s1 = s2 /\ r1 = r2.
Proof.
  induction s1 as [|c s1 IH]; intros s2 r1 r2 H1 H2 Heq.
  - destruct s2 as [|c2 s2].
    + injection Heq as ->. auto.
    + exfalso. injection Heq as Hc _. destruct H2 as [Hne _]. congruence.
  - destruct s2 as [|c2 s2].
    + exfalso. injection Heq as Hc _. destruct H1 as [Hne _]. congruence.
    + injection Heq as -> Hrest.
      destruct H1 as [_ H1], H2 as [_ H2].
      destruct (IH s2 r1 r2 H1 H2 Hrest) as [-> ->]. auto.
Qed.

Lemma roomId_inj_both (l1 i1 l2 i2 : nat) :
  roomId l1 i1 = roomId l2 i2 -> l1 = l2 /\ i1 = i2.
Proof.
  unfold roomId. intros H. apply String.app_inj in H.
  change ("-room-" +:+ pretty i1) with (String "-" ("room-" +:+ pretty i1)) in H.
  change ("-room-" +:+ pretty i2) with (String "-" ("room-" +:+ pretty i2)) in H.
  apply split_at_dash in H as [Hl Hi]; try apply pretty_nat_no_dash.
  apply pretty_nat_inj in Hl. apply String.app_inj in Hi.
  apply pretty_nat_inj in Hi. auto.
Qed.

(** X22.  Room ids are unique in the whole building: two rooms with the same
    id are the same room of the same level. *)
Theorem room_ids_unique (config : BuildingConfig) (b : BuildingModel)
    (k k' i i' : nat) (lv lv' : Level) (r r' : Room) :
  generate (constructor config) = Normal b ->
  building_levels b !! k = Some lv ->
  building_levels b !! k' = Some lv' ->
  level_rooms lv !! i = Some r ->
  level_rooms lv' !! i' = Some r' ->
  room_id r = room_id r' ->
  k = k' /\ i = i'.
Proof.
  intros Hgen Hlv Hlv' Hr Hr' Hid.
  pose proof (constructor_roomsPerLevel_pos config) as Hpos.
  destruct (generated_levels _ _ _ _ Hpos Hgen Hlv) as [_ ->].
  destruct (generated_levels _ _ _ _ Hpos Hgen Hlv') as [_ ->].
  apply level_room_inv in Hr as (p & _ & ->).
  apply level_room_inv in Hr' as (p' & _ & ->).
  cbn [room_id makeRoom] in Hid. apply roomId_inj_both. exact Hid.
Qed.

(** The statement at work on the default building: the rooms of index
    1 of levels 0 and 1 have different ids. *)
Lemma room_ids_unique_witness :
  exists b lv lv' r r',
    generate (constructor defaultConfig) = Normal b
    /\ building_levels b !! 0%nat = Some lv
    /\ building_levels b !! 1%nat = Some lv'
    /\ level_rooms lv !! 1%nat = Some r
    /\ level_rooms lv' !! 1%nat = Some r'
    /\ room_id r <> room_id r'.
Proof.
  pose proof (constructor_roomsPerLevel_pos defaultConfig) as Hpos.
  destruct (generate_constructor_normal defaultConfig) as [b Hgen].
  destruct (generate_stair_count _ _ Hpos Hgen) as [Hn _].
  destruct (lookup_lt_is_Some_2 (building_levels b) 0) as [lv Hlv].
  { rewrite Hn. simpl. lia. }
  destruct (lookup_lt_is_Some_2 (building_levels b) 1) as [lv' Hlv'].
  { rewrite Hn. simpl. lia. }
  destruct (lookup_lt_is_Some_2 (level_rooms lv) 1) as [r Hr].
  { destruct (generated_levels _ _ _ _ Hpos Hgen Hlv) as [_ ->].
    rewrite length_level_rooms. simpl. lia. }
  destruct (lookup_lt_is_Some_2 (level_rooms lv') 1) as [r' Hr'].
  { destruct (generated_levels _ _ _ _ Hpos Hgen Hlv') as [_ ->].
    rewrite length_level_rooms. simpl. lia. }
  exists b, lv, lv', r, r'.
  split; [exact Hgen|]. split; [exact Hlv|]. split; [exact Hlv'|].
  split; [exact Hr|]. split; [exact Hr'|].
  intros Hid.
  destruct (room_ids_unique defaultConfig b 0 1 1 1 lv lv' r r'
              Hgen Hlv Hlv' Hr Hr' Hid) as [H01 _].
  discriminate H01.
Defined.

End BuildingMore.

(** * More on the flocking simulator *)

Module FlockingMore.

Import Flocking FlockingProofs.
Local Open Scope R_scope.

(** *** One step, boid by boid *)

(** A relation between a boid and the boid [Boid.update] makes of it,
    whatever the other boids are, relates the boids before [update] to
    the boids after it, one by one. *)
Lemma update_loop_pointwise (deltaTime : R) (s0 : FlockingSystem)
    (Rel : Boid -> Boid -> Prop) :
  (forall s i b,
      config s = config s0 ->
      Rel b (Boid_update (steer_boid s i b) deltaTime)) ->
  forall (count start : nat) (cur : FlockingSystem),
    (start + count = List.length (boids s0))%nat ->
    List.length (boids cur) = List.length (boids s0) ->
    config cur = config s0 ->
    (forall i b b', (i < start)%nat -> boids s0 !! i = Some b ->
                    boids cur !! i = Some b' -> Rel b b') ->
    (forall i, (start <= i)%nat -> boids cur !! i = boids s0 !! i) ->
    let fin := fold_left (update_boid deltaTime) (seq start count) cur in
    config fin = config s0
    /\ List.length (boids fin) = List.length (boids s0)
    /\ forall i b b', boids s0 !! i = Some b -> boids fin !! i = Some b' ->
                      Rel b b'.
Proof.
  intros Hrel. induction count as [|count IH];
    intros start cur Hsum Hlen Hcfg Hdone Hrest; cbv zeta.
  - simpl. split; [exact Hcfg|]. split; [exact Hlen|].
    intros i b b' Hb Hb'. apply (Hdone i b b'); auto.
    apply lookup_lt_Some in Hb. lia.
  - simpl fold_left.
    apply (IH (S start) (update_boid deltaTime cur start)).
    + lia.
    + rewrite update_boid_length. exact Hlen.
    + unfold update_boid. destruct (boids cur !! start); auto.
    + intros i b b' Hi Hb Hb'. unfold update_boid in Hb'.
      destruct (boids cur !! start) as [boid|] eqn:Hstart.
      * simpl in Hb'. destruct (decide (i = start)) as [->|Hne].
        -- rewrite list_lookup_insert_eq in Hb'
             by (apply lookup_lt_Some in Hstart; exact Hstart).
           injection Hb' as <-.
           rewrite (Hrest start (le_n _)), Hb in Hstart.
           injection Hstart as <-. apply Hrel. exact Hcfg.
        -- rewrite list_lookup_insert_ne in Hb' by congruence.
           apply (Hdone i b b'); auto. lia.
      * apply lookup_ge_None in Hstart. lia.
    + intros i Hi. unfold update_boid.
      destruct (boids cur !! start) as [boid|]; simpl.
      * rewrite list_lookup_insert_ne by lia. apply Hrest. lia.
      * apply Hrest. lia.
Qed.

Lemma update_pointwise (deltaTime : R) (s : FlockingSystem)
    (Rel : Boid -> Boid -> Prop) :
  (forall s' i b,
      config s' = config s ->
      Rel b (Boid_update (steer_boid s' i b) deltaTime)) ->
  config (update s deltaTime) = config s
  /\ Forall2 Rel (boids s) (boids (update s deltaTime)).
Proof.
  intros Hrel.
  destruct (update_loop_pointwise deltaTime s Rel Hrel
              (List.length (boids s)) 0 s)
    as (Hcfg & Hlen & Hall); auto.
  - intros i b b' Hi. lia.
  - split; [exact Hcfg|].
    apply Forall2_same_length_lookup_2; [symmetry; exact Hlen|].
    intros i b b' Hb Hb'. apply (Hall i b b' Hb Hb').
Qed.

(** X23.  What a step keeps: [update] changes neither the configuration nor
    the number of boids, and leaves every boid with a null acceleration
    and a speed of at most 5.0, whatever the configuration, the
    positions and velocities before, and the time step. *)
Theorem update_keeps (s : FlockingSystem) (deltaTime : R) :
  config (update s deltaTime) = config s
  /\ List.length (boids (update s deltaTime)) = List.length (boids s)
  /\ forall b, b ∈ boids (update s deltaTime) ->
               acceleration b = zero /\ length (velocity b) <= 5.0.
Proof.
  destruct (update_pointwise deltaTime s
              (fun _ b' => acceleration b' = zero
                           /\ length (velocity b') <= 5.0))
    as [Hcfg Hall].
  { intros s' i b _. split.
    - apply Boid_update_acceleration.
    - apply Boid_update_speed. }
  split; [exact Hcfg|].
  split; [symmetry; apply (Forall2_length _ _ _ Hall)|].
  intros b Hb. apply list_elem_of_lookup in Hb as (i & Hb).
  destruct (Forall2_lookup_r _ _ _ _ _ Hall Hb) as (b0 & _ & H). exact H.
Qed.

(** X24.  A step of no duration moves nobody: after [update(0)] every boid
    is where it was. *)
Theorem update_zero_time (s : FlockingSystem) :
  Forall2 (fun b b' => position b' = position b)
          (boids s) (boids (update s 0)).
Proof.
  apply (update_pointwise 0 s (fun b b' => position b' = position b)).
  intros s' i b _. unfold Boid_update, steer_boid, applyForce. simpl.
  apply vector_eq; simpl; lra.
Qed.

(** *** The size of the steering forces *)

Lemma length_zero_inv (a : Vector3) : length a = 0 -> a = zero.
Proof.
  unfold length. intros H. apply sqrt_eq_0 in H.
  - apply vector_eq; simpl; nra.
  - nra.
Qed.

Lemma or_one_pos (l : R) : 0 <= l -> 0 < or_one l.
Proof.
  intros Hl. unfold or_one. destruct (Req_dec_T l 0); lra.
Qed.

(** [clampLength(0, max)] returns a vector no longer than [max]. *)
Lemma length_clampLength (a : Vector3) (max : R) :
  0 <= max -> length (clampLength a 0 max) <= max.
Proof.
  intros Hmax. unfold clampLength, divideScalar.
  pose proof (length_nonneg a) as Hl.
  pose proof (or_one_pos (length a) Hl) as Hone.
  set (c := Rmax 0 (Rmin max (length a))).
  assert (0 <= c <= max) as [Hc0 Hcm].
  { unfold c. split; [apply Rmax_l|].
    apply Rmax_lub; [exact Hmax|apply Rmin_l]. }
  rewrite (length_multiplyScalar _ c Hc0).
  rewrite length_multiplyScalar
    by (apply Rlt_le; apply Rdiv_lt_0_compat; lra).
  assert (1 / or_one (length a) * length a <= 1) as Hunit.
  { unfold or_one. destruct (Req_dec_T (length a) 0) as [H0|Hne].
    - rewrite H0. lra.
    - right. field. exact Hne. }
  assert (0 <= 1 / or_one (length a) * length a) as Hpos.
  { apply Rmult_le_pos; [|exact Hl].
    apply Rlt_le. apply Rdiv_lt_0_compat; lra. }
  nra.
Qed.

(** A neighbour loop either leaves its accumulator alone or counts one
    more neighbour. *)
Lemma scan_from_counts {A : Type} (f : A * nat -> Boid -> A * nat)
    (self : nat) :
  (forall st other, f st other = st \/ (snd st < snd (f st other))%nat) ->
  forall others index st,
    scan_from f self index others st = st
    \/ (snd st < snd (scan_from f self index others st))%nat.
Proof.
  intros Hf. induction others as [|other others IH]; intros index st; simpl.
  - left. reflexivity.
  - destruct (Nat.eqb index self).
    + apply IH.
    + destruct (Hf st other) as [Heq|Hlt].
      * rewrite Heq. apply IH.
      * destruct (IH (S index) (f st other)) as [Heq|Hlt'].
        -- rewrite Heq. right. exact Hlt.
        -- right. lia.
Qed.

Lemma separate_body_counts (radius : R) (boid : Boid)
    (st : Vector3 * nat) (other : Boid) :
  separate_body radius boid st other = st
  \/ (snd st < snd (separate_body radius boid st other))%nat.
Proof.
  unfold separate_body.
  destruct (Rgt_dec _ 0); [|left; reflexivity].
  destruct (Rlt_dec _ radius); [right; simpl; lia|left; reflexivity].
Qed.

Lemma align_body_counts (radius : R) (boid : Boid)
    (st : Vector3 * nat) (other : Boid) :
  align_body radius boid st other = st
  \/ (snd st < snd (align_body radius boid st other))%nat.
Proof.
  unfold align_body.
  destruct (Rgt_dec _ 0); [|left; reflexivity].
  destruct (Rlt_dec _ radius); [right; simpl; lia|left; reflexivity].
Qed.

Lemma cohesion_body_counts (radius : R) (boid : Boid)
    (st : Vector3 * nat) (other : Boid) :
  cohesion_body radius boid st other = st
  \/ (snd st < snd (cohesion_body radius boid st other))%nat.
Proof.
  unfold cohesion_body.
  destruct (Rgt_dec _ 0); [|left; reflexivity].
  destruct (Rlt_dec _ radius); [right; simpl; lia|left; reflexivity].
Qed.

Lemma separate_bounded (s : FlockingSystem) (self : nat) (boid : Boid) :
  0 <= maxForce (config s) ->
  length (separate s self boid) <= maxForce (config s).
Proof.
  intros Hmax. unfold separate, scan.
  destruct (scan_from_counts
              (separate_body (separationRadius (config s)) boid) self
              (separate_body_counts _ _) (boids s) 0%nat (zero, 0%nat))
    as [Heq|Hlt].
  - rewrite Heq. simpl. rewrite length_zero. exact Hmax.
  - destruct (scan_from _ _ _ _ _) as [steer count]. simpl in Hlt.
    destruct (0 <? count)%nat eqn:E.
    + apply length_clampLength. exact Hmax.
    + apply Nat.ltb_ge in E. lia.
Qed.

Lemma align_bounded (s : FlockingSystem) (self : nat) (boid : Boid) :
  0 <= maxForce (config s) ->
  length (align s self boid) <= maxForce (config s).
Proof.
  intros Hmax. unfold align.
  destruct (scan _ _ _ _) as [sum count].
  destruct (0 <? count)%nat.
  - apply length_clampLength. exact Hmax.
  - rewrite length_zero. exact Hmax.
Qed.

Lemma cohesion_bounded (s : FlockingSystem) (self : nat) (boid : Boid) :
  0 <= maxForce (config s) ->
  length (cohesion s self boid) <= maxForce (config s).
Proof.
  intros Hmax. unfold cohesion.
  destruct (scan _ _ _ _) as [sum count].
  destruct (0 <? count)%nat.
  - apply length_clampLength. exact Hmax.
  - rewrite length_zero. exact Hmax.
Qed.

Lemma boundaries_bounded (s : FlockingSystem) (boid : Boid) :
  0 <= maxForce (config s) ->
  length (boundaries s boid) <= maxForce (config s).
Proof.
  intros Hmax. unfold boundaries.
  destruct (Rgt_dec _ 0) as [Hpos|Hnull].
  - apply length_clampLength. exact Hmax.
  - lra.
Qed.

(** X25.  With a maxForce that is not negative, none of the four steering
    forces is longer than maxForce, whatever the boids and the other
    settings. *)
Theorem steering_forces_bounded (s : FlockingSystem) (self : nat)
    (boid : Boid) :
  0 <= maxForce (config s) ->
  length (separate s self boid) <= maxForce (config s)
  /\ length (align s self boid) <= maxForce (config s)
  /\ length (cohesion s self boid) <= maxForce (config s)
  /\ length (boundaries s boid) <= maxForce (config s).
Proof.
  intros Hmax. split; [apply separate_bounded; exact Hmax|].
  split; [apply align_bounded; exact Hmax|].
  split; [apply cohesion_bounded; exact Hmax|].
  apply boundaries_bounded. exact Hmax.
Qed.

(** The statement at work: two boids one unit apart, in the default
    configuration (maxForce 0.1). *)
Lemma steering_forces_bounded_witness :
  let b0 := Boid_constructor (mkVector3 0 50 0) (mkVector3 1 0 0) in
  let b1 := Boid_constructor (mkVector3 1 50 0) (mkVector3 0 0 1) in
  let s := addBoid (addBoid (FlockingSystem_constructor emptyConfig) b0) b1 in
  length (separate s 0 b0) <= 0.1.
Proof.
  cbv zeta.
  apply (steering_forces_bounded
           (addBoid (addBoid (FlockingSystem_constructor emptyConfig)
                       (Boid_constructor (mkVector3 0 50 0) (mkVector3 1 0 0)))
              (Boid_constructor (mkVector3 1 50 0) (mkVector3 0 0 1)))
           0
           (Boid_constructor (mkVector3 0 50 0) (mkVector3 1 0 0))).
  simpl. lra.
Defined.

Lemma forces_null (s : FlockingSystem) (self : nat) (boid : Boid) :
  maxForce (config s) = 0 ->
  separate s self boid = zero /\ align s self boid = zero
  /\ cohesion s self boid = zero /\ boundaries s boid = zero.
Proof.
  intros H0.
  assert (0 <= maxForce (config s)) as Hmax by lra.
  pose proof (separate_bounded s self boid Hmax) as Hsep.
  pose proof (align_bounded s self boid Hmax) as Hali.
  pose proof (cohesion_bounded s self boid Hmax) as Hcoh.
  pose proof (boundaries_bounded s boid Hmax) as Hbnd.
  rewrite H0 in Hsep, Hali, Hcoh, Hbnd.
  repeat split; apply length_zero_inv;
    match goal with
    | |- length ?v = 0 => pose proof (length_nonneg v); lra
    end.
Qed.

(** X26.  With maxForce = 0 the simulation is quiescent: the four steering
    forces are the null vector for every boid, and [update] lets every
    boid that has no pending acceleration and a speed of at most 5.0
    coast in a straight line, with its velocity unchanged. *)
Theorem zero_maxForce_quiescent (s : FlockingSystem) (deltaTime : R) :
  maxForce (config s) = 0 ->
  (forall self boid,
      separate s self boid = zero /\ align s self boid = zero
      /\ cohesion s self boid = zero /\ boundaries s boid = zero)
  /\ Forall2 (fun b b' =>
                acceleration b = zero -> length (velocity b) <= 5.0 ->
                velocity b' = velocity b
                /\ position b'
                   = add (position b) (multiplyScalar (velocity b) deltaTime))
             (boids s) (boids (update s deltaTime)).
Proof.
  intros H0. split; [intros self boid; apply forces_null; exact H0|].
  apply (update_pointwise deltaTime s).
  intros s' i b Hcfg Hacc Hslow.
  assert (maxForce (config s') = 0) as H0' by (rewrite Hcfg; exact H0).
  destruct (forces_null s' i b H0') as (Hsep & Hali & Hcoh & Hbnd).
  assert (Hsteer : acceleration (steer_boid s' i b) = zero).
  { unfold steer_boid, applyForce. simpl.
    rewrite Hsep, Hali, Hcoh, Hbnd, Hacc.
    apply vector_eq; simpl; lra. }
  assert (Hv : add (velocity (steer_boid s' i b))
                 (multiplyScalar (acceleration (steer_boid s' i b)) deltaTime)
               = velocity b).
  { rewrite Hsteer. apply vector_eq; simpl; lra. }
  assert (Hvel : velocity (Boid_update (steer_boid s' i b) deltaTime)
                 = velocity b).
  { rewrite Boid_update_slow; [exact Hv|]. rewrite Hv. exact Hslow. }
  split; [exact Hvel|].
  change (position (Boid_update (steer_boid s' i b) deltaTime))
    with (add (position b)
              (multiplyScalar
                 (velocity (Boid_update (steer_boid s' i b) deltaTime))
                 deltaTime)).
  rewrite Hvel. reflexivity.
Qed.

(** The statement at work: maxForce set to 0 on a system of two
    boids. *)
Lemma zero_maxForce_quiescent_witness :
  let c := {| opt_separation := None; opt_alignment := None;
              opt_cohesion := None; opt_separationRadius := None;
              opt_neighborRadius := None; opt_maxSpeed := None;
              opt_maxForce := Some 0; opt_bounds := None;
              opt_center := None; opt_planeHeight := None |} in
  let b0 := Boid_constructor (mkVector3 0 0 0) (mkVector3 1 0 0) in
  let b1 := Boid_constructor (mkVector3 1 0 0) (mkVector3 0 0 1) in
  let s := addBoid (addBoid (FlockingSystem_constructor c) b0) b1 in
  maxForce (config s) = 0
  /\ separate s 0 b0 = zero /\ boundaries s b0 = zero.
Proof.
  cbv zeta. split; [reflexivity|].
  match goal with
  | |- separate ?s _ ?b = _ /\ _ =>
      destruct (zero_maxForce_quiescent s 1 eq_refl) as [Hnull _];
      destruct (Hnull 0%nat b) as (Hsep & _ & _ & Hbnd)
  end.
  split; [exact Hsep|exact Hbnd].
Defined.

(** *** Neighbours out of range *)

Lemma scan_from_fixed {St : Type} (f : St -> Boid -> St) (self : nat)
    (others : list Boid) :
  forall index st,
    (forall k other, others !! k = Some other -> (index + k)%nat <> self ->
                     f st other = st) ->
    scan_from f self index others st = st.
Proof.
  induction others as [|other others IH]; intros index st Hfix; simpl.
  - reflexivity.
  - assert (Hhead : (if Nat.eqb index self then st else f st other) = st).
    { destruct (Nat.eqb index self) eqn:E; [reflexivity|].
      apply Nat.eqb_neq in E. apply (Hfix 0%nat other); [reflexivity|lia]. }
    rewrite Hhead. apply IH. intros k o Hk Hne.
    apply (Hfix (S k) o); [exact Hk|lia].
Qed.

(** X27.  A boid whose fellows are all out of range feels no flocking force:
    when no other boid is at a distance strictly between 0 and the
    radius, separation (for separationRadius), alignment and cohesion
    (for neighborRadius) are the null vector.  A boid at distance
    exactly 0 counts as out of range. *)
Theorem out_of_range_no_force (s : FlockingSystem) (self : nat)
    (boid : Boid) :
  (forall k other,
      boids s !! k = Some other -> k <> self ->
      ~ (0 < distanceTo (position boid) (position other)
             < neighborRadius (config s))) ->
  (forall k other,
      boids s !! k = Some other -> k <> self ->
      ~ (0 < distanceTo (position boid) (position other)
             < separationRadius (config s))) ->
  separate s self boid = zero
  /\ align s self boid = zero
  /\ cohesion s self boid = zero.
Proof.
  intros Hfar Hsep.
  assert (Hs : scan (separate_body (separationRadius (config s)) boid)
                 s self (zero, 0%nat) = (zero, 0%nat)).
  { unfold scan. apply scan_from_fixed. intros k other Hk Hne.
    unfold separate_body.
    destruct (Rgt_dec _ 0) as [Hpos|]; [|reflexivity].
    destruct (Rlt_dec _ _) as [Hlt|]; [|reflexivity].
    exfalso. apply (Hsep k other Hk); [simpl in Hne; lia|lra]. }
  assert (Ha : scan (align_body (neighborRadius (config s)) boid)
                 s self (zero, 0%nat) = (zero, 0%nat)).
  { unfold scan. apply scan_from_fixed. intros k other Hk Hne.
    unfold align_body.
    destruct (Rgt_dec _ 0) as [Hpos|]; [|reflexivity].
    destruct (Rlt_dec _ _) as [Hlt|]; [|reflexivity].
    exfalso. apply (Hfar k other Hk); [simpl in Hne; lia|lra]. }
  assert (Hc : scan (cohesion_body (neighborRadius (config s)) boid)
                 s self (zero, 0%nat) = (zero, 0%nat)).
  { unfold scan. apply scan_from_fixed. intros k other Hk Hne.
    unfold cohesion_body.
    destruct (Rgt_dec _ 0) as [Hpos|]; [|reflexivity].
    destruct (Rlt_dec _ _) as [Hlt|]; [|reflexivity].
    exfalso. apply (Hfar k other Hk); [simpl in Hne; lia|lra]. }
  unfold separate, align, cohesion. rewrite Hs, Ha, Hc. auto.
Qed.

Lemma distanceTo_self (p : Vector3) : distanceTo p p = 0.
Proof.
  unfold distanceTo. cbv zeta.
  replace ((vx p - vx p) * (vx p - vx p) + (vy p - vy p) * (vy p - vy p)
           + (vz p - vz p) * (vz p - vz p)) with 0 by ring.
  apply sqrt_0.
Qed.

(** The statement at work: two boids at the same place, with different
    velocities, ignore each other. *)
Lemma out_of_range_no_force_witness :
  let b0 := Boid_constructor (mkVector3 3 50 3) (mkVector3 1 0 0) in
  let b1 := Boid_constructor (mkVector3 3 50 3) (mkVector3 0 0 1) in
  let s := addBoid (addBoid (FlockingSystem_constructor emptyConfig) b0) b1 in
  separate s 0 b0 = zero /\ align s 0 b0 = zero /\ cohesion s 0 b0 = zero.
Proof.
  cbv zeta.
  apply out_of_range_no_force.
  - intros k other Hk Hne.
    destruct k as [|[|k]]; [contradiction|idtac|discriminate Hk].
    simpl in Hk. injection Hk as <-. simpl position.
    rewrite distanceTo_self. lra.
  - intros k other Hk Hne.
    destruct k as [|[|k]]; [contradiction|idtac|discriminate Hk].
    simpl in Hk. injection Hk as <-. simpl position.
    rewrite distanceTo_self. lra.
Defined.

End FlockingMore.

(** * The branches of a plant *)

Module PlantProofs.

Import Js LSys LSysProofs LSysMore Plant.
Local Open Scope R_scope.

Lemma distFromRoot_nonneg (p : Point) : 0 <= distFromRoot p.
Proof. apply sqrt_pos. Qed.

(** X28.  For a branch thickness that is not negative, the radii of every
    branch stay between a floor and the branch thickness: the top radius
    between 0.3 and 1 times the thickness, the bottom radius between 0.2
    and 1 times; no radius is negative however far from the root the
    segment is, and no branch is shorter than 0.001. *)
Theorem branch_radii_bounded (branchThickness : R)
    (commands : list TurtleCommand) (c : Cylinder) :
  0 <= branchThickness ->
  c ∈ branches branchThickness commands ->
  branchThickness * 0.3 <= radiusTop c <= branchThickness
  /\ branchThickness * 0.2 <= radiusBottom c <= branchThickness
  /\ 0.001 <= height c.
Proof.
  intros Hbt Hc. unfold branches in Hc.
  apply list_elem_of_omap in Hc as (cmd & _ & Hb).
  destruct cmd as [from to]. unfold branch in Hb.
  destruct (Rlt_dec _ 0.001) as [|Hlong]; [discriminate|].
  injection Hb as <-. simpl.
  pose proof (distFromRoot_nonneg from) as Hf.
  pose proof (distFromRoot_nonneg to) as Ht.
  repeat split.
  - apply Rmax_r.
  - apply Rmax_lub; nra.
  - apply Rmax_r.
  - apply Rmax_lub; nra.
  - apply Rnot_lt_le. exact Hlong.
Qed.

Lemma segmentLength_flat (stepSize : R) (cmd : TurtleCommand) :
  flat_segment stepSize cmd -> segmentLength cmd = Rabs stepSize.
Proof.
  destruct cmd as [a b]. simpl. intros (Ha & Hb & Hlen).
  unfold Flocking.length. simpl.
  rewrite Ha, Hb.
  replace ((px b - px a) * (px b - px a) + (py b - py a) * (py b - py a)
           + (0 - 0) * (0 - 0)) with (Rsqr stepSize)
    by (unfold Rsqr; lra).
  apply sqrt_Rsqr_abs.
Qed.

Lemma run_flat (angle stepSize : R) (lstring : string) (t : Turtle) :
  run angle stepSize initial lstring = Normal t ->
  Forall (flat_segment stepSize) (commands t).
Proof.
  intros Ht.
  apply (run_invariant angle stepSize
           (fun t => pz (position_of t) = 0
                     /\ Forall (fun sv => pz (saved_position sv) = 0) (stack t)
                     /\ Forall (flat_segment stepSize) (commands t))
           (fun t c t' => flat_step angle stepSize t t' c)
           lstring initial t); [|exact Ht].
  simpl. repeat split; constructor.
Qed.

Lemma branches_all_kept (bt stepSize : R) (cmds : list TurtleCommand) :
  0.001 <= Rabs stepSize ->
  Forall (flat_segment stepSize) cmds ->
  List.length (branches bt cmds) = List.length cmds
  /\ Forall (fun c => height c = Rabs stepSize) (branches bt cmds).
Proof.
  intros Hlong Hflat. unfold branches.
  induction Hflat as [|cmd cmds Hcmd _ IH]; [split; [reflexivity|constructor]|].
  pose proof (segmentLength_flat stepSize cmd Hcmd) as Hlen.
  destruct IH as [IHn IHh].
  assert (Hb : exists c, branch bt cmd = Some c /\ height c = Rabs stepSize).
  { destruct cmd as [from to]. unfold branch. rewrite Hlen.
    destruct (Rlt_dec (Rabs stepSize) 0.001); [lra|].
    eexists. split; [reflexivity|reflexivity]. }
  destruct Hb as (c & Hc & Hh). simpl. rewrite Hc. simpl.
  split; [f_equal; exact IHn|]. constructor; assumption.
Qed.

Lemma branches_all_skipped (bt stepSize : R) (cmds : list TurtleCommand) :
  Rabs stepSize < 0.001 ->
  Forall (flat_segment stepSize) cmds ->
  branches bt cmds = [].
Proof.
  intros Hshort Hflat. unfold branches.
  induction Hflat as [|cmd cmds Hcmd _ IH]; [reflexivity|].
  pose proof (segmentLength_flat stepSize cmd Hcmd) as Hlen.
  simpl. destruct cmd as [from to]. unfold branch at 1. rewrite Hlen.
  destruct (Rlt_dec (Rabs stepSize) 0.001); [|lra]. exact IH.
Qed.

(** The statement at work on the first segment of a plant, one unit
    up from the root, with the default thickness 0.1. *)
Lemma branch_radii_bounded_witness :
  exists c,
    c ∈ branches 0.1 [Line (mkPoint 0 0 0) (mkPoint 0 1 0)]
    /\ 0.1 * 0.3 <= radiusTop c <= 0.1
    /\ 0.1 * 0.2 <= radiusBottom c <= 0.1.
Proof.
  assert (Hflat : Forall (flat_segment 1)
                         [Line (mkPoint 0 0 0) (mkPoint 0 1 0)]).
  { constructor; [|constructor]. simpl. repeat split; lra. }
  assert (Hlong : 0.001 <= Rabs 1).
  { unfold Rabs. destruct (Rcase_abs 1); lra. }
  destruct (branches_all_kept 0.1 1 _ Hlong Hflat) as [Hn _].
  destruct (branches 0.1 [Line (mkPoint 0 0 0) (mkPoint 0 1 0)])
    as [|c rest] eqn:E; [discriminate Hn|].
  exists c. split; [apply list_elem_of_here|].
  destruct (branch_radii_bounded 0.1
              [Line (mkPoint 0 0 0) (mkPoint 0 1 0)] c) as (Ht & Hb & _).
  - lra.
  - rewrite E. apply list_elem_of_here.
  - split; [exact Ht|exact Hb].
Defined.

(** X29.  From the string to the branches.  With a step of absolute value at
    least 0.001 the plant has one branch for each F and each G of the
    string, each as long as the step; with a smaller step every segment
    is skipped and the plant has no branch at all. *)
Theorem plant_branches_of_string (bt : R) (resultString : string)
    (angle stepSize : R) :
  exists cyls,
    plantBranches bt resultString angle stepSize = Normal cyls
    /\ (0.001 <= Rabs stepSize ->
        List.length cyls = count_draws resultString
        /\ Forall (fun c => height c = Rabs stepSize) cyls)
    /\ (Rabs stepSize < 0.001 -> cyls = []).
Proof.
  unfold plantBranches, parseLSystemString.
  destruct (run_normal angle stepSize resultString initial) as [t Ht].
  rewrite Ht. simpl. eexists. split; [reflexivity|].
  pose proof (run_flat _ _ _ _ Ht) as Hflat.
  split.
  - intros Hlong.
    destruct (branches_all_kept bt stepSize (commands t) Hlong Hflat)
      as [Hn Hh].
    split; [|exact Hh].
    rewrite Hn, (run_count _ _ _ _ _ Ht). reflexivity.
  - intros Hshort. apply (branches_all_skipped bt stepSize _ Hshort Hflat).
Qed.

(** The statement at work on "F[+F]F": three branches of length 1 with
    a step of 1, none with a step of 0.0005. *)
Lemma plant_branches_of_string_witness :
  (exists cyls, plantBranches 0.1 "F[+F]F" 0.4 1 = Normal cyls
                /\ List.length cyls = 3%nat)
  /\ plantBranches 0.1 "F[+F]F" 0.4 0.0005 = Normal [].
Proof.
  split.
  - destruct (plant_branches_of_string 0.1 "F[+F]F" 0.4 1)
      as (cyls & Hrun & Hlong & _).
    exists cyls. split; [exact Hrun|].
    destruct Hlong as [Hn _]; [|exact Hn].
    unfold Rabs. destruct (Rcase_abs 1); lra.
  - destruct (plant_branches_of_string 0.1 "F[+F]F" 0.4 0.0005)
      as (cyls & Hrun & _ & Hshort).
    rewrite Hrun. f_equal. apply Hshort.
    unfold Rabs. destruct (Rcase_abs 0.0005); lra.
Defined.

End PlantProofs.
